(** * Stooda: the UFRGS exam-question extractor (src/main.py)

    A shallow embedding of [ExtractorUFRGS] and of the part of Python's
    [re] module that its patterns use, followed by the properties of the
    segmentation and association engine.

    Texts are Python [str] values: sequences of Unicode code points.
    Python integers are [Z]; the image index (a [dict] keyed by page
    number) is a [gmap Z]. *)

From Stdlib Require Import ZArith NArith Ascii Bool Sorting.Sorted Sorting.Permutation.
From Stdlib Require DecimalNat.
From stdpp Require Import base list strings gmap.

Local Open Scope N_scope.

(** ** Texts *)

(** A character is a Unicode code point. *)
Definition char : Type := N.
Definition text : Type := list char.

Fixpoint bytes_of (s : string) : list N :=
  match s with
  | EmptyString => []
  | String a s' => N_of_ascii a :: bytes_of s'
  end.

(** The literals of this file are written as UTF-8 strings and decoded
    to code points (one to four bytes per code point). *)
Fixpoint utf8_decode (bs : list N) : text :=
  match bs with
  | [] => []
  | b :: r =>
      if b <? 128 then b :: utf8_decode r
      else if b <? 224 then
        match r with
        | b1 :: r1 => ((b - 192) * 64 + (b1 - 128)) :: utf8_decode r1
        | [] => []
        end
      else if b <? 240 then
        match r with
        | b1 :: b2 :: r2 =>
            ((b - 224) * 4096 + (b1 - 128) * 64 + (b2 - 128)) :: utf8_decode r2
        | _ => []
        end
      else
        match r with
        | b1 :: b2 :: b3 :: r3 =>
            ((b - 240) * 262144 + (b1 - 128) * 4096 + (b2 - 128) * 64 + (b3 - 128))
              :: utf8_decode r3
        | _ => []
        end
  end.

Definition str (s : string) : text := utf8_decode (bytes_of s).

Definition nl : char := 10.

(** *** Character classes

    The tables follow CPython for the Basic Latin and Latin-1 Supplement
    blocks, which cover Portuguese text, and for every white-space code
    point.  Digits, letters and case pairs of other scripts are not
    tabulated: a code point above U+00FF is neither a digit nor a word
    character, and it is its own lower case. *)

Definition in_range (lo hi x : char) : bool := (lo <=? x) && (x <=? hi).

(** [str.isspace] and the pattern [\s]. *)
Definition is_space (x : char) : bool :=
  in_range 9 13 x || in_range 28 32 x || (x =? 133) || (x =? 160)
  || (x =? 5760) || in_range 8192 8202 x || (x =? 8232) || (x =? 8233)
  || (x =? 8239) || (x =? 8287) || (x =? 12288).

(** The pattern [\d]. *)
Definition is_digit (x : char) : bool := in_range 48 57 x.

(** The pattern [\w]: alphanumeric or underscore. *)
Definition is_word (x : char) : bool :=
  in_range 48 57 x || in_range 65 90 x || (x =? 95) || in_range 97 122 x
  || (x =? 170) || (x =? 178) || (x =? 179) || (x =? 181) || (x =? 185)
  || (x =? 186) || in_range 188 190 x || in_range 192 214 x
  || in_range 216 246 x || in_range 248 255 x.

(** Simple lower-casing, as used by [re.IGNORECASE]. *)
Definition lower (x : char) : char :=
  if in_range 65 90 x then x + 32
  else if in_range 192 214 x || in_range 216 222 x then x + 32
  else x.

(** Two characters are equal up to letter case. *)
Definition ci_eqb (x y : char) : bool := lower x =? lower y.

(** [str.strip()]. *)
Fixpoint lstrip (s : text) : text :=
  match s with
  | x :: s' => if is_space x then lstrip s' else s
  | [] => []
  end.

Definition rstrip (s : text) : text := rev (lstrip (rev s)).
Definition strip (s : text) : text := rstrip (lstrip s).

(** [str.split()] with no argument: the maximal runs of characters that
    are not white space. [cur] is the run being read, reversed. *)
Fixpoint split_ws (cur : text) (s : text) : list text :=
  match s with
  | [] => match cur with [] => [] | _ => [rev cur] end
  | x :: s' =>
      if is_space x then
        match cur with
        | [] => split_ws [] s'
        | _ => rev cur :: split_ws [] s'
        end
      else split_ws (x :: cur) s'
  end.

(** [' '.join(l)]. *)
Fixpoint join_sp (l : list text) : text :=
  match l with
  | [] => []
  | [w] => w
  | w :: l' => w ++ 32 :: join_sp l'
  end.

(** [int(s)] on a run of decimal digits. *)
Definition digit_val (x : char) : Z := Z.of_N (x - 48).

Definition int_of (ds : text) : Z :=
  fold_left (fun acc x => (10 * acc + digit_val x)%Z) ds 0%Z.

(** Decimal rendering of a number, as an f-string does it. *)
Fixpoint uint_text (d : Decimal.uint) : text :=
  match d with
  | Decimal.Nil => []
  | Decimal.D0 d' => 48 :: uint_text d'
  | Decimal.D1 d' => 49 :: uint_text d'
  | Decimal.D2 d' => 50 :: uint_text d'
  | Decimal.D3 d' => 51 :: uint_text d'
  | Decimal.D4 d' => 52 :: uint_text d'
  | Decimal.D5 d' => 53 :: uint_text d'
  | Decimal.D6 d' => 54 :: uint_text d'
  | Decimal.D7 d' => 55 :: uint_text d'
  | Decimal.D8 d' => 56 :: uint_text d'
  | Decimal.D9 d' => 57 :: uint_text d'
  end.

Definition nat_text (n : nat) : text := uint_text (Nat.to_uint n).

(** ** The regular expressions of Python's [re]

    The backtracking matcher: alternatives are tried left to right, a
    greedy repetition tries the longest run first and a lazy one the
    shortest, and the first way of matching that lets the rest of the
    pattern succeed is the match.  Every repetition in the program's
    patterns is over a single-character item, so that is the form of
    repetition the syntax has. *)
Module Re.

(** An item matches one character. *)
Inductive item : Type :=
| Lit (c : char)              (* a literal character *)
| Dot                         (* [.] under re.DOTALL *)
| DotNoNl                     (* [.] without re.DOTALL *)
| Digit                       (* [\d] *)
| Space                       (* [\s] *)
| OneOf (cs : list char)      (* a set such as [VF] *)
| Range (lo hi : char).       (* a range such as [A-E] *)

(** [ic] is the flag re.IGNORECASE; the program uses it with literals
    only. *)
Definition item_match (ic : bool) (i : item) (x : char) : bool :=
  match i with
  | Lit c => if ic then ci_eqb x c else x =? c
  | Dot => true
  | DotNoNl => negb (x =? nl)
  | Digit => is_digit x
  | Space => is_space x
  | OneOf cs => existsb (fun c => if ic then ci_eqb x c else x =? c) cs
  | Range lo hi => in_range lo hi x
  end.

Inductive regex : Type :=
| Eps
| One (i : item)
| Rep (i : item) (lo : nat) (hi : option nat) (greedy : bool)
| Seq (r1 r2 : regex)
| Alt (r1 r2 : regex)
| Group (n : nat) (r : regex)   (* capturing group number n *)
| Ahead (r : regex)             (* (?=r) *)
| Bos                           (* ^ without re.MULTILINE *)
| Eos                           (* $ without re.MULTILINE *)
| EosZ                          (* \Z *)
| WordB.                        (* \b *)

(** The position of the matcher in the subject: the text before it,
    nearest character first, the text after it, and the groups captured
    so far, latest first. *)
Record mstate : Type := MState {
  before : text;
  after : text;
  groups : list (nat * text)
}.

Definition more_allowed (hi : option nat) : bool :=
  match hi with
  | Some 0%nat => false
  | _ => true
  end.

Definition one_less (hi : option nat) : option nat :=
  match hi with
  | Some h => Some (Nat.pred h)
  | None => None
  end.

Fixpoint rep_greedy (ic : bool) (i : item) (lo : nat) (hi : option nat)
    (gs : list (nat * text)) (bef aft : text)
    (k : mstate -> option mstate) {struct aft} : option mstate :=
  let stop := match lo with
              | O => k (MState bef aft gs)
              | S _ => None
              end in
  match aft with
  | x :: aft' =>
      if item_match ic i x && more_allowed hi then
        match rep_greedy ic i (Nat.pred lo) (one_less hi) gs (x :: bef) aft' k with
        | Some r => Some r
        | None => stop
        end
      else stop
  | [] => stop
  end.

Fixpoint rep_lazy (ic : bool) (i : item) (lo : nat) (hi : option nat)
    (gs : list (nat * text)) (bef aft : text)
    (k : mstate -> option mstate) {struct aft} : option mstate :=
  let more := match aft with
              | x :: aft' =>
                  if item_match ic i x && more_allowed hi then
                    rep_lazy ic i (Nat.pred lo) (one_less hi) gs (x :: bef) aft' k
                  else None
              | [] => None
              end in
  match lo with
  | O => match k (MState bef aft gs) with
         | Some r => Some r
         | None => more
         end
  | S _ => more
  end.

(** The text read between two positions of one match. *)
Definition consumed (st st' : mstate) : text :=
  rev (take (length (before st') - length (before st)) (before st')).

Definition word_before (st : mstate) : bool :=
  match before st with
  | x :: _ => is_word x
  | [] => false
  end.

Definition word_after (st : mstate) : bool :=
  match after st with
  | x :: _ => is_word x
  | [] => false
  end.

(** [exec ic r st k]: match [r] at [st], then continue with [k]; [None]
    when no way of matching [r] lets [k] succeed. *)
Fixpoint exec (ic : bool) (r : regex) (st : mstate)
    (k : mstate -> option mstate) {struct r} : option mstate :=
  match r with
  | Eps => k st
  | One i =>
      match after st with
      | x :: aft' =>
          if item_match ic i x then k (MState (x :: before st) aft' (groups st))
          else None
      | [] => None
      end
  | Rep i lo hi true => rep_greedy ic i lo hi (groups st) (before st) (after st) k
  | Rep i lo hi false => rep_lazy ic i lo hi (groups st) (before st) (after st) k
  | Seq r1 r2 => exec ic r1 st (fun st' => exec ic r2 st' k)
  | Alt r1 r2 =>
      match exec ic r1 st k with
      | Some res => Some res
      | None => exec ic r2 st k
      end
  | Group n r1 =>
      exec ic r1 st (fun st' =>
        k (MState (before st') (after st') ((n, consumed st st') :: groups st')))
  | Ahead r1 =>
      match exec ic r1 st Some with
      | Some _ => k st
      | None => None
      end
  | Bos => match before st with [] => k st | _ => None end
  | Eos =>
      match after st with
      | [] => k st
      | [x] => if x =? nl then k st else None
      | _ => None
      end
  | EosZ => match after st with [] => k st | _ => None end
  | WordB => if xorb (word_before st) (word_after st) then k st else None
  end.

(** A match object: where the match starts and the state at its end. *)
Record match_obj : Type := Match {
  m_start : nat;
  m_final : mstate
}.

Definition m_end (m : match_obj) : nat := length (before (m_final m)).

(** [m.group(0)]. *)
Definition whole (m : match_obj) : text :=
  rev (take (m_end m - m_start m) (before (m_final m))).

(** [m.group(n)] for a group that took part in the match. *)
Fixpoint lookup_group (n : nat) (gs : list (nat * text)) : text :=
  match gs with
  | [] => []
  | (j, t) :: gs' => if Nat.eqb j n then t else lookup_group n gs'
  end.

Definition group (m : match_obj) (n : nat) : text :=
  lookup_group n (groups (m_final m)).

(** An attempt at one position. *)
Definition match_at (ic : bool) (r : regex) (bef aft : text) : option match_obj :=
  match exec ic r (MState bef aft []) Some with
  | Some st => Some (Match (length bef) st)
  | None => None
  end.

(** [re.search]: the attempt at the leftmost position that succeeds. *)
Fixpoint search_from (ic : bool) (r : regex) (bef aft : text) : option match_obj :=
  match match_at ic r bef aft with
  | Some m => Some m
  | None =>
      match aft with
      | x :: aft' => search_from ic r (x :: bef) aft'
      | [] => None
      end
  end.

Definition search (ic : bool) (r : regex) (s : text) : option match_obj :=
  search_from ic r [] s.

(** [re.finditer]: the matches from left to right, each search starting
    where the previous match ended.  [skip] counts the characters still
    inside the previous match.  (The patterns of the program cannot match
    the empty text; after an empty match the scan moves one character
    on.) *)
Fixpoint finditer_from (ic : bool) (r : regex) (skip : nat) (bef aft : text)
    : list match_obj :=
  match skip with
  | S n =>
      match aft with
      | x :: aft' => finditer_from ic r n (x :: bef) aft'
      | [] => []
      end
  | O =>
      match match_at ic r bef aft with
      | Some m =>
          m :: match aft with
               | x :: aft' =>
                   finditer_from ic r (Nat.pred (m_end m - m_start m)) (x :: bef) aft'
               | [] => []
               end
      | None =>
          match aft with
          | x :: aft' => finditer_from ic r O (x :: bef) aft'
          | [] => []
          end
      end
  end.

Definition finditer (ic : bool) (r : regex) (s : text) : list match_obj :=
  finditer_from ic r O [] s.

(** [re.findall] for a pattern without groups. *)
Definition findall (ic : bool) (r : regex) (s : text) : list text :=
  map whole (finditer ic r s).

(** [re.sub(r, '', s)]: the subject without its matches. *)
Fixpoint sub_empty_from (ic : bool) (r : regex) (skip : nat) (bef aft : text) : text :=
  match skip with
  | S n =>
      match aft with
      | x :: aft' => sub_empty_from ic r n (x :: bef) aft'
      | [] => []
      end
  | O =>
      match match_at ic r bef aft with
      | Some m =>
          match aft with
          | x :: aft' =>
              match (m_end m - m_start m)%nat with
              | O => x :: sub_empty_from ic r O (x :: bef) aft'
              | S n => sub_empty_from ic r n (x :: bef) aft'
              end
          | [] => []
          end
      | None =>
          match aft with
          | x :: aft' => x :: sub_empty_from ic r O (x :: bef) aft'
          | [] => []
          end
      end
  end.

Definition sub_empty (ic : bool) (r : regex) (s : text) : text :=
  sub_empty_from ic r O [] s.

(** A literal word, one item per character. *)
Fixpoint word (w : text) : regex :=
  match w with
  | [] => Eps
  | [c] => One (Lit c)
  | c :: w' => Seq (One (Lit c)) (word w')
  end.

(** [r1 r2 ... rn] and [r1|r2|...|rn]. *)
Fixpoint seq (rs : list regex) : regex :=
  match rs with
  | [] => Eps
  | [r] => r
  | r :: rs' => Seq r (seq rs')
  end.

Fixpoint alt (rs : list regex) : regex :=
  match rs with
  | [] => Eps
  | [r] => r
  | r :: rs' => Alt r (alt rs')
  end.

Definition star (i : item) : regex := Rep i 0 None true.
Definition plus (i : item) : regex := Rep i 1 None true.
Definition plus_lazy (i : item) : regex := Rep i 1 None false.
Definition star_lazy (i : item) : regex := Rep i 0 None false.

End Re.

(** ** The extractor (class [ExtractorUFRGS]) *)

Import Re.

Local Open Scope Z_scope.

(** The value of the key "tipo". *)
Inductive tipo_questao : Type :=
| verdadeiro_falso
| calculo
| interpretacao_texto
| multipla_escolha.

(** An entry of [self.imagens_por_pagina] (the key "bbox", a rectangle of
    floating-point coordinates, is written once and never read). *)
Record imagem_indexada : Type := ImagemIndexada {
  idx_arquivo : text;
  idx_caminho : text;
  idx_pagina : Z;
  idx_index : Z;
  idx_formato : text
}.

(** An entry of the key "imagens" of a question. *)
Record imagem : Type := Imagem {
  arquivo : text;
  caminho : text;
  pagina : Z;
  formato : text
}.

Record alternativa : Type := Alternativa {
  letra : text;
  texto_alternativa : text
}.

(** A question, the dictionary that [_estruturar_questao] builds. The
    formulas are the elements of a Python [set], listed in an order the
    language does not fix: they are kept as a set. *)
Record questao : Type := Questao {
  numero : Z;
  materia : option text;
  instrucao : option text;
  enunciado : text;
  alternativas : list alternativa;
  tipo : tipo_questao;
  tem_imagem : bool;
  imagens : list imagem;
  formulas : gset text
}.

(** The attributes of [self] that the text processing reads. *)
Record extractor : Type := Extractor {
  materia_atual : option text;
  imagens_por_pagina : gmap Z (list imagem_indexada)
}.

(** [texto[a:b]] for [0 <= a <= b]; the caller's [max(0, i - 500)] is the
    subtraction of [nat]. *)
Definition slice (s : text) (a b : nat) : text := take (b - a) (drop a s).

(** *** Subjects *)

(** The dictionary [materias], in insertion order. *)
Definition materias : list (text * text) :=
  [ (str "PORTUGUÊS", str "Português");
    (str "LITERATURA", str "Literatura");
    (str "MATEMÁTICA", str "Matemática");
    (str "FÍSICA", str "Física");
    (str "QUÍMICA", str "Química");
    (str "HISTÓRIA", str "História");
    (str "GEOGRAFIA", str "Geografia");
    (str "BIOLOGIA", str "Biologia") ].

(** rf'\b{keyword}\b' *)
Definition padrao_materia (keyword : text) : regex :=
  Seq WordB (Seq (word keyword) WordB).

(** The loop over [materias.items()] of both subject functions: the
    label of the first keyword found, searched with re.IGNORECASE. *)
Fixpoint primeira_materia (tabela : list (text * text)) (texto : text) : option text :=
  match tabela with
  | [] => None
  | (keyword, materia) :: resto =>
      match search true (padrao_materia keyword) texto with
      | Some _ => Some materia
      | None => primeira_materia resto texto
      end
  end.

(** [_detectar_materia]: the new value of [self.materia_atual]. *)
Definition _detectar_materia (materia_atual : option text) (texto : text) : option text :=
  match primeira_materia materias texto with
  | Some materia => Some materia
  | None => materia_atual
  end.

Definition _extrair_materia_contexto (self : extractor) (contexto : text) : option text :=
  match primeira_materia materias contexto with
  | Some materia => Some materia
  | None => materia_atual self
  end.

(** *** Page of a question *)

(** r'\[PAGINA:(\d+)\]' *)
Definition padrao_pagina : regex :=
  Seq (word (str "[PAGINA:")) (Seq (Group 1 (plus Digit)) (One (Lit 93%N))).

Definition _extrair_pagina_contexto (contexto : text) : option Z :=
  match search false padrao_pagina contexto with
  | Some m => Some (int_of (group m 1))
  | None => None
  end.

(** *** Images of a question *)

(** r'figura|imagem|gráfico|tabela|diagrama|ilustração|quadro|mapa|inf|chart' *)
Definition palavras_referencia : list text :=
  [ str "figura"; str "imagem"; str "gráfico"; str "tabela"; str "diagrama";
    str "ilustração"; str "quadro"; str "mapa"; str "inf"; str "chart" ].

Definition padrao_referencia : regex := alt (map word palavras_referencia).

Definition referencia_de (img : imagem_indexada) : imagem :=
  Imagem (idx_arquivo img) (idx_caminho img) (idx_pagina img) (idx_formato img).

(** The loop [for offset in range(0, 5)], with its [break]. *)
Fixpoint procurar_imagens (indice : gmap Z (list imagem_indexada))
    (pagina_atual : Z) (offsets : list Z) (imagens_proximas : list imagem)
    : list imagem :=
  match offsets with
  | [] => imagens_proximas
  | offset :: resto =>
      let pagina_busca := pagina_atual + offset in
      match indice !! pagina_busca with
      | Some imgs =>
          let imagens_proximas := imagens_proximas ++ map referencia_de imgs in
          match imagens_proximas with
          | _ :: _ => imagens_proximas
          | [] => procurar_imagens indice pagina_atual resto imagens_proximas
          end
      | None => procurar_imagens indice pagina_atual resto imagens_proximas
      end
  end.

Definition _encontrar_imagens_por_numero (self : extractor) (numero_questao : Z)
    (texto_questao : text) (pagina_atual : option Z) (proxima_questao : option Z)
    : list imagem :=
  let tem_referencia_imagem :=
    match search true padrao_referencia texto_questao with
    | Some _ => true
    | None => false
    end in
  if negb tem_referencia_imagem then []
  else
    let imagens_proximas :=
      match pagina_atual with
      | Some pagina_atual =>
          procurar_imagens (imagens_por_pagina self) pagina_atual [0; 1; 2; 3; 4] []
      | None => []
      end in
    take 2 imagens_proximas.

(** *** Instruction, statement, options, type, formulas *)

Definition rotulo_instrucao : regex :=
  Alt (word (str "Instrução")) (word (str "INSTRUÇÃO")).

(** The lookahead (?=\n\(|$). *)
Definition fim_instrucao : regex :=
  Ahead (Alt (Seq (One (Lit nl)) (One (Lit 40%N))) Eos).

(** r'(?:Instrução|INSTRUÇÃO):\s*(.+?)(?=\n\(|$)' with re.DOTALL *)
Definition padrao_instrucao : regex :=
  seq [rotulo_instrucao; One (Lit 58%N); star Space; Group 1 (plus_lazy Dot);
       fim_instrucao].

Definition _extrair_instrucao (texto : text) : option text :=
  match search false padrao_instrucao texto with
  | Some m => Some (strip (group m 1))
  | None => None
  end.

(** r'(?:Instrução|INSTRUÇÃO):.*?(?=\n\(|$)' with re.DOTALL *)
Definition padrao_instrucao_limpar : regex :=
  seq [rotulo_instrucao; One (Lit 58%N); star_lazy Dot; fim_instrucao].

(** r'^(.+?)\n\s*\([A-E]\)' with re.DOTALL *)
Definition padrao_enunciado : regex :=
  seq [Bos; Group 1 (plus_lazy Dot); One (Lit nl); star Space; One (Lit 40%N);
       One (Range 65%N 69%N); One (Lit 41%N)].

(** r'l\.\s*\d+' *)
Definition padrao_linha : regex :=
  seq [One (Lit 108%N); One (Lit 46%N); star Space; plus Digit].

Definition _extrair_enunciado (texto : text) : text :=
  let texto_limpo := sub_empty false padrao_instrucao_limpar texto in
  match search false padrao_enunciado texto_limpo with
  | Some m =>
      let enunciado := strip (group m 1) in
      sub_empty false padrao_linha enunciado
  | None => strip texto_limpo
  end.

(** r'\(([A-E])\)\s*(.+?)(?=\([A-F]\)|$)' with re.DOTALL *)
Definition padrao_alternativa : regex :=
  seq [One (Lit 40%N); Group 1 (One (Range 65%N 69%N)); One (Lit 41%N); star Space;
       Group 2 (plus_lazy Dot);
       Ahead (Alt (seq [One (Lit 40%N); One (Range 65%N 70%N); One (Lit 41%N)]) Eos)].

Fixpoint alternativas_de (matches : list match_obj) : list alternativa :=
  match matches with
  | [] => []
  | m :: resto =>
      let letra := group m 1 in
      let conteudo := strip (group m 2) in
      let conteudo := join_sp (split_ws [] conteudo) in
      match conteudo with
      | [] => alternativas_de resto
      | _ => Alternativa letra conteudo :: alternativas_de resto
      end
  end.

Definition _extrair_alternativas (texto : text) : list alternativa :=
  alternativas_de (finditer false padrao_alternativa texto).

(** r'\([VF]\)' *)
Definition padrao_vf : regex :=
  seq [One (Lit 40%N); One (OneOf (str "VF")); One (Lit 41%N)].

(** r'[∫∑∏√±×÷≤≥≠∞]|frac|sqrt|\^' *)
Definition padrao_calculo : regex :=
  alt [One (OneOf (str "∫∑∏√±×÷≤≥≠∞")); word (str "frac"); word (str "sqrt");
       One (Lit 94%N)].

Definition _classificar_tipo_questao (texto : text) : tipo_questao :=
  match search false padrao_vf texto with
  | Some _ => verdadeiro_falso
  | None =>
      match search false padrao_calculo texto with
      | Some _ => calculo
      | None =>
          if (800 <? length texto)%nat then interpretacao_texto
          else multipla_escolha
      end
  end.

(** The four patterns of [_extrair_formulas] (no re.DOTALL here):
    r'\b[a-z]\^[0-9]', r'\\frac\{.+?\}\{.+?\}', r'\\sqrt\{.+?\}',
    r'∫.+?d[xyz]'. *)
Definition padroes_formula : list regex :=
  [ seq [WordB; One (Range 97%N 122%N); One (Lit 94%N); One (Range 48%N 57%N)];
    seq [word (str "\frac{"); plus_lazy DotNoNl; word (str "}{"); plus_lazy DotNoNl;
         One (Lit 125%N)];
    seq [word (str "\sqrt{"); plus_lazy DotNoNl; One (Lit 125%N)];
    seq [word (str "∫"); plus_lazy DotNoNl; One (Lit 100%N); One (OneOf (str "xyz"))] ].

Definition _extrair_formulas (texto : text) : gset text :=
  list_to_set (concat (map (fun pattern => findall false pattern texto) padroes_formula)).

(** *** A question *)

Definition _estruturar_questao (self : extractor) (numero : Z) (texto : text)
    (materia : option text) (pagina : option Z) (proxima_questao : option Z)
    : questao :=
  let enunciado := _extrair_enunciado texto in
  let alternativas := _extrair_alternativas texto in
  let tipo := _classificar_tipo_questao texto in
  let imagens_relacionadas :=
    _encontrar_imagens_por_numero self numero texto pagina proxima_questao in
  let tem_imagem := (0 <? length imagens_relacionadas)%nat in
  Questao numero materia (_extrair_instrucao texto) enunciado alternativas tipo
    tem_imagem imagens_relacionadas (_extrair_formulas texto).

(** *** Segmentation *)

(** The lookahead's first branch: r'\n\s*\d{1,3}\s*\.\s+' *)
Definition inicio_questao : regex :=
  seq [One (Lit nl); star Space; Rep Digit 1 (Some 3%nat) true; star Space;
       One (Lit 46%N); plus Space].

(** r'\n\s*(\d{1,3})\s*\.\s+(.+?)(?=\n\s*\d{1,3}\s*\.\s+|\Z)' with re.DOTALL *)
Definition padrao_questao : regex :=
  seq [One (Lit nl); star Space; Group 1 (Rep Digit 1 (Some 3%nat) true); star Space;
       One (Lit 46%N); plus Space; Group 2 (plus_lazy Dot);
       Ahead (Alt inicio_questao EosZ)].

(** What one turn of the loop over [matches] hands to
    [_estruturar_questao]. *)
Record questao_bruta : Type := QuestaoBruta {
  b_numero : Z;
  b_texto : text;
  b_materia : option text;
  b_pagina : option Z;
  b_proxima : option Z
}.

(** The loop [for i, match in enumerate(matches)]: the calls of
    [_estruturar_questao] it makes, in order. *)
Fixpoint questoes_brutas (self : extractor) (texto : text) (matches : list match_obj)
    : list questao_bruta :=
  match matches with
  | [] => []
  | m :: resto =>
      let numero := int_of (group m 1) in
      let texto_questao := strip (group m 2) in
      let inicio_match := m_start m in
      let contexto_anterior := slice texto (inicio_match - 500) inicio_match in
      let materia := _extrair_materia_contexto self contexto_anterior in
      let pagina := _extrair_pagina_contexto contexto_anterior in
      let proxima_questao_num :=
        match resto with
        | m' :: _ => Some (int_of (group m' 1))
        | [] => None
        end in
      match texto_questao with
      | _ :: _ =>
          if (5 <? length texto_questao)%nat then
            QuestaoBruta numero texto_questao materia pagina proxima_questao_num
              :: questoes_brutas self texto resto
          else questoes_brutas self texto resto
      | [] => questoes_brutas self texto resto
      end
  end.

Definition estruturar (self : extractor) (b : questao_bruta) : questao :=
  _estruturar_questao self (b_numero b) (b_texto b) (b_materia b) (b_pagina b)
    (b_proxima b).

(** The questions handed to the structurer for a whole text. *)
Definition segmentar (self : extractor) (texto : text) : list questao_bruta :=
  questoes_brutas self texto (finditer false padrao_questao texto).

Definition _processar_texto_completo (self : extractor) (texto : text) : list questao :=
  map (estruturar self) (segmentar self texto).

(** *** The whole document *)

(** The second pass over the pages. A page is its text, or [None] when
    reading it raises: the page is then skipped, its number too.
    Returns [self.materia_atual] and [texto_completo]. *)
Fixpoint ler_paginas (paginas : list (option text)) (page_num : nat)
    (materia_atual : option text) (texto_completo : text) : option text * text :=
  match paginas with
  | [] => (materia_atual, texto_completo)
  | None :: resto => ler_paginas resto (S page_num) materia_atual texto_completo
  | Some texto_pagina :: resto =>
      let materia_atual := _detectar_materia materia_atual texto_pagina in
      let texto_completo :=
        texto_completo ++ nl :: str "[PAGINA:" ++ nat_text page_num ++ str "]" ++ [nl] in
      let texto_completo :=
        match materia_atual with
        | Some m => texto_completo ++ str "[MATERIA:" ++ m ++ str "]" ++ [nl]
        | None => texto_completo
        end in
      ler_paginas resto (S page_num) materia_atual (texto_completo ++ texto_pagina)
  end.

(** The sort of [self.questoes.sort(key=...)]: stable, by number. *)
Fixpoint inserir (q : questao) (l : list questao) : list questao :=
  match l with
  | [] => [q]
  | q' :: l' => if numero q <=? numero q' then q :: l else q' :: inserir q l'
  end.

Definition ordenar (l : list questao) : list questao := foldr inserir [] l.

Definition enunciado_nao_vazio (q : questao) : bool :=
  match strip (enunciado q) with
  | [] => false
  | _ :: _ => true
  end.

(** The end of [extrair_todas_questoes]: filter, then sort. *)
Definition montar (questoes : list questao) : list questao :=
  ordenar (filter (fun q => enunciado_nao_vazio q = true) questoes).

(** [extrair_todas_questoes] on a document whose image index has been
    built ([indice]) and whose pages are [paginas]; the extractor is
    fresh ([materia_atual] is [None], [questoes] is empty).
    [questoes_do_texto] is [self.questoes] before the filter. *)
Definition questoes_do_texto (indice : gmap Z (list imagem_indexada))
    (paginas : list (option text)) : list questao :=
  let '(materia_atual, texto_completo) := ler_paginas paginas 0 None [] in
  let self := Extractor materia_atual indice in
  match texto_completo with
  | [] => []
  | _ :: _ => _processar_texto_completo self texto_completo
  end.

Definition extrair_todas_questoes (indice : gmap Z (list imagem_indexada))
    (paginas : list (option text)) : list questao :=
  montar (questoes_do_texto indice paginas).

(** ** Vocabulary of the properties *)

(** [w] occurs in [s]. *)
Definition contains (w s : text) : Prop :=
  exists pre post, s = pre ++ w ++ post.

(** [u] is [w] up to the case of its letters. *)
Definition same_ci (u w : text) : Prop :=
  Forall2 (fun x c => ci_eqb x c = true) u w.

(** [w] occurs in [s] in some letter case. *)
Definition contains_ci (w s : text) : Prop :=
  exists pre u post, s = pre ++ u ++ post /\ same_ci u w.

(** The markers of a true-or-false question, and the signs of a
    calculation, as the classification rules name them. *)
Definition tem_marcador_vf (t : text) : Prop :=
  contains (str "(V)") t \/ contains (str "(F)") t.

Definition tem_sinal_de_calculo (t : text) : Prop :=
  (exists c, c ∈ str "∫∑∏√±×÷≤≥≠∞" /\ c ∈ t)
  \/ contains (str "frac") t \/ contains (str "sqrt") t \/ contains (str "^") t.

(** [s] begins with [w] (up to letter case when [ic] is set). *)
Fixpoint starts (ic : bool) (w s : text) : bool :=
  match w with
  | [] => true
  | c :: w' =>
      match s with
      | x :: s' => item_match ic (Lit c) x && starts ic w' s'
      | [] => false
      end
  end.

(** The state of the matcher after reading [n] characters. *)
Definition advance (n : nat) (st : mstate) : mstate :=
  MState (rev (take n (after st)) ++ before st) (drop n (after st)) (groups st).

(** The length of the longest run of characters satisfying [p] at the
    start of [s]. *)
Fixpoint run (p : char -> bool) (s : text) : nat :=
  match s with
  | x :: s' => if p x then S (run p s') else O
  | [] => O
  end.

(** ** Examples *)

(** An index with three images on page 5 and one on page 6. *)
Definition imagem_exemplo (p i : Z) (nome : text) : imagem_indexada :=
  ImagemIndexada nome (str "imagens_questoes/" ++ nome) p i (str "png").

Definition indice_exemplo : gmap Z (list imagem_indexada) :=
  <[5%Z := [imagem_exemplo 5 0 (str "pag5_img0.png");
            imagem_exemplo 5 1 (str "pag5_img1.png");
            imagem_exemplo 5 2 (str "pag5_img2.png")]]>
  (<[6%Z := [imagem_exemplo 6 0 (str "pag6_img0.png")]]> ∅).

(** A one-page document with the questions 3, 1, 1, 2, in that order; the
    second question 1 is an instruction only, so its statement is empty. *)
Definition pagina_exemplo : text :=
  str "3. Terceira questao" ++ nl :: str "1. Primeira questao" ++ nl ::
  str "1. Instrução: leia o texto" ++ nl :: str "2. Segunda questao".

(** *** What a pattern can match

    [reach ic r st st']: the pattern [r], read at the position [st],
    can end at the position [st'].  The matcher [exec] tries these ends
    in its order of preference and keeps the first that lets the rest of
    the pattern succeed. *)

(** The count [n] respects the upper bound [hi] of a repetition. *)
Definition within (hi : option nat) (n : nat) : Prop :=
  match hi with
  | Some h => (n <= h)%nat
  | None => True
  end.

Fixpoint reach (ic : bool) (r : regex) (st st' : mstate) : Prop :=
  match r with
  | Eps => st' = st
  | One i =>
      exists x, after st = x :: after st' /\ item_match ic i x = true /\
        before st' = x :: before st /\ groups st' = groups st
  | Rep i lo hi _ =>
      exists w, after st = w ++ after st' /\ before st' = rev w ++ before st /\
        groups st' = groups st /\ Forall (fun x => item_match ic i x = true) w /\
        (lo <= length w)%nat /\ within hi (length w)
  | Seq r1 r2 => exists mid, reach ic r1 st mid /\ reach ic r2 mid st'
  | Alt r1 r2 => reach ic r1 st st' \/ reach ic r2 st st'
  | Group n r1 =>
      exists st1, reach ic r1 st st1 /\
        st' = MState (before st1) (after st1) ((n, consumed st st1) :: groups st1)
  | Ahead r1 => (exists st1, reach ic r1 st st1) /\ st' = st
  | Bos => before st = [] /\ st' = st
  | Eos => (after st = [] \/ after st = [nl]) /\ st' = st
  | EosZ => after st = [] /\ st' = st
  | WordB => xorb (word_before st) (word_after st) = true /\ st' = st
  end.

(** [contains], decided. *)
Fixpoint occurs (w s : text) : bool :=
  starts false w s ||
  match s with
  | [] => false
  | _ :: s' => occurs w s'
  end.


(** [w] occurs in [s] as a whole word, in some letter case: the
    character before the occurrence, and the one after it, if any, are
    not word characters. *)
Definition palavra_inteira (w s : text) : Prop :=
  exists pre u post, s = pre ++ u ++ post /\ same_ci u w /\
    match rev pre with x :: _ => is_word x = false | [] => True end /\
    match post with x :: _ => is_word x = false | [] => True end.

(** The texts whose characters all lie in the blocks that the character
    tables cover. *)
Definition latin1 (s : text) : Prop := Forall (fun x => (x < 256)%N) s.

(** A numbered line begins the text [s]: a line break, white space, one
    to three digits, white space, a period and at least one white-space
    character. *)
Definition inicio_numerado (s : text) : Prop :=
  exists sp ds sp2 sp3 r,
    s = nl :: sp ++ ds ++ sp2 ++ 46%N :: sp3 ++ r /\
    Forall (fun x => is_space x = true) sp /\
    Forall (fun x => is_digit x = true) ds /\ (1 <= length ds <= 3)%nat /\
    Forall (fun x => is_space x = true) sp2 /\
    Forall (fun x => is_space x = true) sp3 /\ sp3 <> [].

(** What re.IGNORECASE takes for a letter [c] of the reference words:
    the characters equal to [c] up to letter case and, outside Latin-1,
    the capital I with a dot (U+0130) and the small i without one
    (U+0131) for i, and the long s (U+017F) for s. *)
Definition ci_re (x c : char) : bool :=
  ci_eqb x c
  || ((lower c =? 105)%N && ((x =? 304)%N || (x =? 305)%N))
  || ((lower c =? 115)%N && (x =? 383)%N).

(** [u] is [w] as re.IGNORECASE reads it, and [w] occurs so in [s]. *)
Definition same_ci_re (u w : text) : Prop :=
  Forall2 (fun x c => ci_re x c = true) u w.

Definition contains_ci_re (w s : text) : Prop :=
  exists pre u post, s = pre ++ u ++ post /\ same_ci_re u w.

(** [contains_ci_re], decided. *)
Fixpoint starts_re (w s : text) : bool :=
  match w with
  | [] => true
  | c :: w' =>
      match s with
      | x :: s' => ci_re x c && starts_re w' s'
      | [] => false
      end
  end.

Fixpoint occurs_re (w s : text) : bool :=
  starts_re w s ||
  match s with
  | [] => false
  | _ :: s' => occurs_re w s'
  end.



(** * Properties *)
(** ** The matcher *)

Lemma advance_0 st : advance 0 st = st.
Proof. destruct st; reflexivity. Qed.

Lemma advance_S n x bef aft gs :
  advance (S n) (MState bef (x :: aft) gs) = advance n (MState (x :: bef) aft gs).
Proof.
  unfold advance; simpl. rewrite <- app_assoc. reflexivity.
Qed.

Lemma exec_word ic w st k :
  exec ic (word w) st k =
  if starts ic w (after st) then k (advance (length w) st) else None.
Proof.
  revert st k. induction w as [|c w IH]; intros [bef aft gs] k.
  - reflexivity.
  - destruct w as [|c' w].
    + simpl. destruct aft as [|x aft]; [reflexivity|].
      rewrite andb_true_r.
      destruct (if ic then ci_eqb x c else (x =? c)%N); reflexivity.
    + change (word (c :: c' :: w)) with (Seq (One (Lit c)) (word (c' :: w))).
      cbn [exec after before groups]. destruct aft as [|x aft]; [reflexivity|].
      cbn [starts item_match].
      destruct (if ic then ci_eqb x c else (x =? c)%N); [|reflexivity].
      rewrite IH. cbn [after andb]. rewrite (advance_S (length (c' :: w))).
      reflexivity.
Qed.

Lemma search_from_None ic r bef aft :
  search_from ic r bef aft = None <->
  forall a1 a2, aft = a1 ++ a2 -> match_at ic r (rev a1 ++ bef) a2 = None.
Proof.
  revert bef. induction aft as [|x aft IH]; intros bef; simpl.
  - split.
    + intros H a1 a2 E. symmetry in E. apply app_eq_nil in E as [-> ->].
      simpl. destruct (match_at ic r bef []); congruence.
    + intros H. specialize (H [] [] eq_refl). simpl in H. rewrite H. reflexivity.
  - split.
    + intros H a1 a2 E.
      destruct (match_at ic r bef (x :: aft)) eqn:M; [discriminate|].
      destruct a1 as [|y a1]; simpl in E.
      * subst a2. exact M.
      * injection E as -> E. simpl. rewrite <- app_assoc. simpl.
        apply (proj1 (IH (y :: bef)) H a1 a2 E).
    + intros H. pose proof (H [] (x :: aft) eq_refl) as H0. simpl in H0. rewrite H0.
      apply IH. intros a1 a2 E.
      specialize (H (x :: a1) a2). simpl in H. rewrite <- app_assoc in H.
      apply H. rewrite E. reflexivity.
Qed.

Lemma search_from_Some ic r bef aft m :
  search_from ic r bef aft = Some m <->
  exists a1 a2, aft = a1 ++ a2 /\ match_at ic r (rev a1 ++ bef) a2 = Some m /\
    forall b1 b2, b2 <> [] -> a1 = b1 ++ b2 ->
      match_at ic r (rev b1 ++ bef) (b2 ++ a2) = None.
Proof.
  revert bef. induction aft as [|x aft IH]; intros bef; simpl.
  - split.
    + intros H. exists [], []. destruct (match_at ic r bef []) eqn:M; [|discriminate].
      split; [reflexivity|]. split; [simpl; congruence|].
      intros b1 b2 Hb E. destruct b1, b2; simpl in E; congruence.
    + intros (a1 & a2 & E & M & _). symmetry in E. apply app_eq_nil in E as [-> ->].
      simpl in M. rewrite M. reflexivity.
  - split.
    + intros H. destruct (match_at ic r bef (x :: aft)) eqn:M.
      * exists [], (x :: aft). split; [reflexivity|]. split; [simpl; congruence|].
        intros b1 b2 Hb E. destruct b1, b2; simpl in E; congruence.
      * apply IH in H as (a1 & a2 & E & M' & F).
        exists (x :: a1), a2. split; [simpl; congruence|].
        split; [simpl; rewrite <- app_assoc; exact M'|].
        intros b1 b2 Hb E'. destruct b1 as [|y b1]; simpl in E'.
        -- subst b2. simpl. rewrite <- E. exact M.
        -- injection E' as <- E'. simpl. rewrite <- app_assoc. simpl.
           apply F; assumption.
    + intros (a1 & a2 & E & M & F). destruct a1 as [|y a1]; simpl in E, M.
      * subst a2. rewrite M. reflexivity.
      * injection E as <- E.
        pose proof (F [] (x :: a1) ltac:(discriminate) eq_refl) as F0.
        simpl in F0. rewrite <- E in F0. rewrite F0.
        apply IH. exists a1, a2. split; [exact E|].
        split; [rewrite <- app_assoc in M; exact M|].
        intros b1 b2 Hb E'. specialize (F (x :: b1) b2 Hb).
        simpl in F. rewrite <- app_assoc in F. apply F. rewrite E'. reflexivity.
Qed.

Lemma starts_spec ic w s :
  starts ic w s = true <->
  exists u post, s = u ++ post /\
    Forall2 (fun x c => item_match ic (Lit c) x = true) u w.
Proof.
  revert s. induction w as [|c w IH]; intros s; simpl.
  - split; [|reflexivity]. intros _. exists [], s. split; [reflexivity|constructor].
  - destruct s as [|x s].
    + split; [discriminate|]. intros (u & post & E & F).
      inversion F; subst. discriminate.
    + rewrite andb_true_iff, IH. split.
      * intros (Hx & u & post & -> & F). exists (x :: u), post.
        split; [reflexivity|]. constructor; assumption.
      * intros (u & post & E & F). inversion F as [|x' c' u' w' Hx F']; subst.
        injection E as -> ->. split; [assumption|]. exists u', post. split; [reflexivity|assumption].
Qed.

Lemma starts_exact w s :
  starts false w s = true <-> exists post, s = w ++ post.
Proof.
  rewrite starts_spec. split.
  - intros (u & post & -> & F). exists post. f_equal.
    induction F as [|x c u w Hx F IH]; [reflexivity|].
    simpl in Hx. apply N.eqb_eq in Hx. congruence.
  - intros (post & ->). exists w, post. split; [reflexivity|].
    induction w as [|c w IH]; constructor; [simpl; apply N.eqb_refl|assumption].
Qed.

Lemma starts_ci w s :
  starts true w s = true <-> exists u post, s = u ++ post /\ same_ci u w.
Proof. apply starts_spec. Qed.

(** A pattern whose attempts do not look at the text before them
    succeeds somewhere exactly when some suffix of the subject lets it
    succeed. *)
Lemma search_is_Some ic r s (p : text -> bool) :
  (forall bef aft, is_Some (match_at ic r bef aft) <-> p aft = true) ->
  is_Some (search ic r s) <-> exists a1 a2, s = a1 ++ a2 /\ p a2 = true.
Proof.
  intros Hp. unfold search. split.
  - intros [m Hm]. apply search_from_Some in Hm as (a1 & a2 & E & M & _).
    exists a1, a2. split; [exact E|]. apply (Hp (rev a1 ++ [])). eauto.
  - intros (a1 & a2 & E & P).
    destruct (search_from ic r [] s) eqn:S; [eauto|].
    rewrite search_from_None in S. specialize (S a1 a2 E).
    apply (Hp (rev a1 ++ [])) in P as [m Hm]. congruence.
Qed.

Lemma match_at_is_Some ic r bef aft :
  is_Some (match_at ic r bef aft) <-> is_Some (exec ic r (MState bef aft []) Some).
Proof.
  unfold match_at. destruct (exec ic r (MState bef aft []) Some); split; intros [? ?]; eauto; discriminate.
Qed.

Lemma exec_alt_words ic ws st :
  ws <> [] ->
  is_Some (exec ic (alt (map word ws)) st Some) <->
  exists w, w ∈ ws /\ starts ic w (after st) = true.
Proof.
  induction ws as [|w ws IH]; [congruence|]. intros _.
  destruct ws as [|w' ws].
  - simpl. rewrite exec_word. split.
    + destruct (starts ic w (after st)) eqn:S; [|intros [? ?]; discriminate].
      intros _. exists w. split; [left|exact S].
    + intros (w0 & Hin & S). apply list_elem_of_singleton in Hin as ->.
      rewrite S. eauto.
  - change (alt (map word (w :: w' :: ws)))
      with (Alt (word w) (alt (map word (w' :: ws)))).
    cbn [exec]. rewrite exec_word.
    destruct (starts ic w (after st)) eqn:S.
    + split; [|eauto]. intros _. exists w. split; [left|exact S].
    + rewrite IH by discriminate. split.
      * intros (w0 & Hin & S0). exists w0. split; [right; exact Hin|exact S0].
      * intros (w0 & Hin & S0). apply elem_of_cons in Hin as [->|Hin]; [congruence|].
        exists w0. split; assumption.
Qed.

(** ** The reference cue *)

Lemma referencia_presente s :
  is_Some (search true padrao_referencia s) <->
  exists w, w ∈ palavras_referencia /\ contains_ci w s.
Proof.
  rewrite (search_is_Some true padrao_referencia s
             (fun a => existsb (fun w => starts true w a) palavras_referencia)).
  - split.
    + intros (a1 & a2 & -> & E). apply existsb_exists in E as (w & Hin & S).
      exists w. split; [apply list_elem_of_In; exact Hin|].
      apply starts_ci in S as (u & post & -> & F). exists a1, u, post. split; [reflexivity|exact F].
    + intros (w & Hin & pre & u & post & -> & F). exists pre, (u ++ post).
      split; [reflexivity|]. apply existsb_exists. exists w.
      split; [apply list_elem_of_In; exact Hin|]. apply starts_ci. eauto.
  - intros bef aft. rewrite match_at_is_Some.
    unfold padrao_referencia. rewrite exec_alt_words by discriminate. simpl after.
    rewrite existsb_exists. split.
    + intros (w & Hin & S). exists w. split; [apply list_elem_of_In; exact Hin|exact S].
    + intros (w & Hin & S). exists w. split; [apply list_elem_of_In; exact Hin|exact S].
Qed.

(** ** Image association *)

Lemma procurar_imagens_nenhuma indice p offsets :
  (forall o, o ∈ offsets -> indice !! (p + o)%Z = None \/ indice !! (p + o)%Z = Some []) ->
  procurar_imagens indice p offsets [] = [].
Proof.
  induction offsets as [|o offsets IH]; intros H; simpl; [reflexivity|].
  destruct (H o ltac:(left)) as [E | E]; rewrite E; simpl; apply IH;
    intros o' Ho'; apply H; right; exact Ho'.
Qed.

Lemma procurar_imagens_primeira indice p antes o depois imgs :
  (forall o', o' ∈ antes ->
     indice !! (p + o')%Z = None \/ indice !! (p + o')%Z = Some []) ->
  indice !! (p + o)%Z = Some imgs -> imgs <> [] ->
  procurar_imagens indice p (antes ++ o :: depois) [] = map referencia_de imgs.
Proof.
  intros H Ho Hne. induction antes as [|o' antes IH]; simpl.
  - rewrite Ho. destruct imgs; [congruence|reflexivity].
  - destruct (H o' ltac:(left)) as [E | E]; rewrite E; simpl; apply IH;
      intros o'' Ho''; apply H; right; exact Ho''.
Qed.

Lemma contains_ci_re_of_ci w s : contains_ci w s -> contains_ci_re w s.
Proof.
  intros (pre & u & post & E & F). exists pre, u, post. split; [exact E|].
  eapply Forall2_impl; [exact F|]. intros x c H. unfold ci_re. rewrite H. reflexivity.
Qed.

Lemma starts_re_same u w post : same_ci_re u w -> starts_re w (u ++ post) = true.
Proof.
  induction 1 as [|x c u w Hx F IH]; [reflexivity|].
  cbn [app starts_re]. rewrite Hx, IH. reflexivity.
Qed.

Lemma not_contains_ci_re w s : occurs_re w s = false -> ~ contains_ci_re w s.
Proof.
  intros H (pre & u & post & -> & F). revert H.
  induction pre as [|y pre IH]; cbn [app].
  - destruct (u ++ post) eqn:E; cbn [occurs_re]; rewrite <- E, (starts_re_same u w post F);
      discriminate.
  - cbn [occurs_re]. intros H. apply orb_false_iff in H as [_ H]. exact (IH H).
Qed.

(** C4. A text with no reference cue, in any letter case as
    re.IGNORECASE reads it, gets no image, whatever the index, the page
    and the number of the next question. *)
Theorem sem_referencia_sem_imagens :
  forall self numero_questao texto_questao pagina_atual proxima_questao,
    (forall w, w ∈ palavras_referencia -> ~ contains_ci_re w texto_questao) ->
    _encontrar_imagens_por_numero self numero_questao texto_questao pagina_atual
      proxima_questao = [].
Proof.
  intros self n t p px H. unfold _encontrar_imagens_por_numero.
  destruct (search true padrao_referencia t) eqn:S; [|reflexivity].
  exfalso. destruct (proj1 (referencia_presente t)) as (w & Hin & Hc); [eauto|].
  exact (H w Hin (contains_ci_re_of_ci w t Hc)).
Qed.

Lemma sem_referencia_sem_imagens_witness :
  _encontrar_imagens_por_numero (Extractor None indice_exemplo) 1
    (str "Calcule a área: π·r², com r = 2.") (Some 5%Z) (Some 2%Z) = [].
Proof.
  apply sem_referencia_sem_imagens.
  intros w Hw. apply not_contains_ci_re. unfold palavras_referencia in Hw.
  rewrite !elem_of_cons, elem_of_nil in Hw.
  repeat destruct Hw as [->|Hw]; try (vm_compute; reflexivity). destruct Hw.
Defined.

(** C10. The result of the image association does not depend on the
    number of the next question. *)
Theorem imagens_independem_da_proxima :
  forall self numero_questao texto_questao pagina_atual next1 next2,
    _encontrar_imagens_por_numero self numero_questao texto_questao pagina_atual next1 =
    _encontrar_imagens_por_numero self numero_questao texto_questao pagina_atual next2.
Proof. reflexivity. Qed.

Lemma sem_imagem_antes (indice : gmap Z (list imagem_indexada)) (p : Z) (k : nat) :
  (forall j, (j < k)%nat ->
     indice !! (p + Z.of_nat j)%Z = None \/ indice !! (p + Z.of_nat j)%Z = Some []) ->
  forall o, o ∈ map Z.of_nat (List.seq 0 k) ->
    indice !! (p + o)%Z = None \/ indice !! (p + o)%Z = Some [].
Proof.
  intros H o Ho. apply list_elem_of_In, in_map_iff in Ho as (j & <- & Hj).
  apply in_seq in Hj. apply H. lia.
Qed.

(** C3. With a reference cue in the text and a known page, the pages
    [pagina_atual], ..., [pagina_atual + 4] are tried in that order; the
    first one that has images in the index gives all the result, cut to
    its first two images, and no later page adds to it. *)
Theorem janela_de_imagens :
  forall self numero_questao texto_questao pagina_atual proxima_questao,
    (exists w, w ∈ palavras_referencia /\ contains_ci w texto_questao) ->
    (forall (k : nat) imgs,
        (k < 5)%nat ->
        imagens_por_pagina self !! (pagina_atual + Z.of_nat k)%Z = Some imgs ->
        imgs <> [] ->
        (forall j, (j < k)%nat ->
           imagens_por_pagina self !! (pagina_atual + Z.of_nat j)%Z = None \/
           imagens_por_pagina self !! (pagina_atual + Z.of_nat j)%Z = Some []) ->
        _encontrar_imagens_por_numero self numero_questao texto_questao
          (Some pagina_atual) proxima_questao = take 2 (map referencia_de imgs))
    /\ ((forall j, (j < 5)%nat ->
           imagens_por_pagina self !! (pagina_atual + Z.of_nat j)%Z = None \/
           imagens_por_pagina self !! (pagina_atual + Z.of_nat j)%Z = Some []) ->
        _encontrar_imagens_por_numero self numero_questao texto_questao
          (Some pagina_atual) proxima_questao = [])
    /\ _encontrar_imagens_por_numero self numero_questao texto_questao None
         proxima_questao = [].
Proof.
  intros self n t p px Hcue.
  apply referencia_presente in Hcue as [m Hm].
  unfold _encontrar_imagens_por_numero. rewrite Hm. cbn [negb].
  split; [|split].
  - intros k imgs Hk Hi Hne Hbefore. f_equal.
    change [0; 1; 2; 3; 4]%Z with (map Z.of_nat (List.seq 0 5)).
    replace 5%nat with (k + S (4 - k))%nat by lia.
    rewrite List.seq_app, map_app. cbn [List.seq map].
    apply procurar_imagens_primeira; [|exact Hi|exact Hne].
    apply sem_imagem_antes. exact Hbefore.
  - intros Hnone. rewrite procurar_imagens_nenhuma; [reflexivity|].
    change [0; 1; 2; 3; 4]%Z with (map Z.of_nat (List.seq 0 5)).
    apply sem_imagem_antes. exact Hnone.
  - reflexivity.
Qed.

(** The example of C3: a cue, page 5, images on pages 5 and 6. *)
Lemma janela_de_imagens_witness :
  _encontrar_imagens_por_numero (Extractor None indice_exemplo) 7
    (str "Observe a figura abaixo.") (Some 5%Z) (Some 8%Z)
  = [ Imagem (str "pag5_img0.png") (str "imagens_questoes/pag5_img0.png") 5 (str "png");
      Imagem (str "pag5_img1.png") (str "imagens_questoes/pag5_img1.png") 5 (str "png") ].
Proof.
  assert (Hcue : exists w, w ∈ palavras_referencia /\
                   contains_ci w (str "Observe a figura abaixo.")).
  { apply referencia_presente. vm_compute. eauto. }
  destruct (janela_de_imagens (Extractor None indice_exemplo) 7
              (str "Observe a figura abaixo.") 5 (Some 8%Z) Hcue) as [H _].
  rewrite (H 0%nat [imagem_exemplo 5 0 (str "pag5_img0.png");
                    imagem_exemplo 5 1 (str "pag5_img1.png");
                    imagem_exemplo 5 2 (str "pag5_img2.png")]).
  - reflexivity.
  - lia.
  - reflexivity.
  - discriminate.
  - intros j Hj. lia.
Defined.

(** ** Assembly: filter and sort *)

Lemma inserir_perm q l : Permutation (inserir q l) (q :: l).
Proof.
  induction l as [|q' l IH]; simpl; [reflexivity|].
  destruct (numero q <=? numero q')%Z; [reflexivity|].
  rewrite IH. apply perm_swap.
Qed.

Lemma ordenar_perm l : Permutation (ordenar l) l.
Proof.
  induction l as [|q l IH]; simpl; [reflexivity|].
  rewrite inserir_perm, IH. reflexivity.
Qed.

Lemma inserir_sorted q l :
  StronglySorted (fun a b => (numero a <= numero b)%Z) l ->
  StronglySorted (fun a b => (numero a <= numero b)%Z) (inserir q l).
Proof.
  induction 1 as [|q' l Hs IH Hall]; simpl.
  - repeat constructor.
  - destruct (numero q <=? numero q')%Z eqn:E.
    + apply Z.leb_le in E. constructor; [constructor; assumption|].
      constructor; [exact E|].
      eapply Forall_impl; [exact Hall|]. simpl. intros; lia.
    + apply Z.leb_gt in E. constructor; [exact IH|].
      rewrite inserir_perm. constructor; [lia|exact Hall].
Qed.

Lemma ordenar_sorted l :
  StronglySorted (fun a b => (numero a <= numero b)%Z) (ordenar l).
Proof.
  induction l as [|q l IH]; simpl; [constructor|]. apply inserir_sorted, IH.
Qed.

(** The sort is stable: the questions of one number keep their order. *)
Lemma inserir_stable n q l :
  filter (fun x => numero x = n) (inserir q l) = filter (fun x => numero x = n) (q :: l).
Proof.
  induction l as [|q' l IH]; simpl; [reflexivity|].
  destruct (numero q <=? numero q')%Z eqn:E; [reflexivity|].
  apply Z.leb_gt in E.
  rewrite (filter_cons _ q'), IH, !filter_cons.
  repeat case_decide; try reflexivity; lia.
Qed.

Lemma ordenar_stable n l :
  filter (fun x => numero x = n) (ordenar l) = filter (fun x => numero x = n) l.
Proof.
  induction l as [|q l IH]; simpl; [reflexivity|].
  rewrite inserir_stable, !filter_cons, IH. reflexivity.
Qed.

Lemma enunciado_nao_vazio_spec q :
  enunciado_nao_vazio q = true <-> strip (enunciado q) <> [].
Proof.
  unfold enunciado_nao_vazio. destruct (strip (enunciado q)); split; congruence.
Qed.

(** C6. The result of [extrair_todas_questoes] holds exactly the
    structured questions whose stripped statement is not empty, each as
    many times as the text gave it; it is in non-decreasing order of
    number, and the questions that share a number are all kept, in the
    order of the text.  On the questions 3, 1, 1, 2 with one empty
    statement, three questions remain, numbered 1, 2, 3. *)
Theorem montagem_filtra_e_ordena :
  forall indice paginas,
    let estruturadas := questoes_do_texto indice paginas in
    let finais := extrair_todas_questoes indice paginas in
    Permutation finais (filter (fun q => strip (enunciado q) <> []) estruturadas)
    /\ StronglySorted (fun a b => (numero a <= numero b)%Z) finais
    /\ (forall n, filter (fun q => numero q = n) finais =
                  filter (fun q => numero q = n)
                    (filter (fun q => strip (enunciado q) <> []) estruturadas))
    /\ map numero (questoes_do_texto ∅ [Some pagina_exemplo]) = [3; 1; 1; 2]%Z
    /\ map numero (extrair_todas_questoes ∅ [Some pagina_exemplo]) = [1; 2; 3]%Z.
Proof.
  intros indice paginas estruturadas finais.
  assert (F : filter (fun q => enunciado_nao_vazio q = true) estruturadas =
              filter (fun q => strip (enunciado q) <> []) estruturadas).
  { apply list_filter_iff. intros q. apply enunciado_nao_vazio_spec. }
  subst finais. unfold extrair_todas_questoes, montar. fold estruturadas. rewrite F.
  split; [apply ordenar_perm|]. split; [apply ordenar_sorted|].
  split; [intros n; apply ordenar_stable|].
  split; vm_compute; reflexivity.
Qed.

(** ** The image flag *)

(** C9. Every question built by [_estruturar_questao] has
    [tem_imagem] true exactly when its list of images is not empty; the
    filter and the sort only keep or drop questions, so this holds of
    every question of the final collection. *)
Theorem tem_imagem_coerente :
  (forall self num texto mat pag proxima_questao,
     let q := _estruturar_questao self num texto mat pag proxima_questao in
     tem_imagem q = bool_decide (0 < length (imagens q))%nat)
  /\ (forall questoes q, q ∈ montar questoes -> q ∈ questoes)
  /\ (forall indice paginas,
        Forall (fun q => tem_imagem q = bool_decide (0 < length (imagens q))%nat)
          (extrair_todas_questoes indice paginas)).
Proof.
  assert (H1 : forall self num texto mat pag proxima_questao,
     let q := _estruturar_questao self num texto mat pag proxima_questao in
     tem_imagem q = bool_decide (0 < length (imagens q))%nat).
  { intros. subst q. simpl.
    destruct (_encontrar_imagens_por_numero self num texto pag proxima_questao);
      reflexivity. }
  assert (H2 : forall questoes q, q ∈ montar questoes -> q ∈ questoes).
  { intros qs q Hq. unfold montar in Hq. rewrite ordenar_perm in Hq.
    apply list_elem_of_filter in Hq. tauto. }
  split; [exact H1|]. split; [exact H2|].
  intros indice paginas. apply Forall_forall. intros q Hq.
  apply H2 in Hq. unfold questoes_do_texto in Hq.
  destruct (ler_paginas paginas 0 None []) as [ma tc].
  destruct tc as [|c tc]; [apply elem_of_nil in Hq; contradiction|].
  unfold _processar_texto_completo in Hq.
  apply list_elem_of_fmap in Hq as (b & -> & _). apply H1.
Qed.

(** ** Type of a question *)

Lemma contains_starts w s :
  contains w s <-> exists a1 a2, s = a1 ++ a2 /\ starts false w a2 = true.
Proof.
  unfold contains. split.
  - intros (pre & post & ->). exists pre, (w ++ post). split; [reflexivity|].
    apply starts_exact. eauto.
  - intros (a1 & a2 & -> & S). apply starts_exact in S as [post ->]. eauto.
Qed.

Lemma vf_presente s :
  is_Some (search false padrao_vf s) <-> tem_marcador_vf s.
Proof.
  rewrite (search_is_Some false padrao_vf s
             (fun a => starts false (str "(V)") a || starts false (str "(F)") a)).
  - unfold tem_marcador_vf. rewrite !contains_starts. split.
    + intros (a1 & a2 & E & H). apply orb_true_iff in H as [H|H]; [left|right]; eauto.
    + intros [(a1 & a2 & E & H)|(a1 & a2 & E & H)]; exists a1, a2; rewrite H;
        split; auto using orb_true_r.
  - intros bef aft. rewrite match_at_is_Some.
    change (str "(V)") with [40; 86; 41]%N. change (str "(F)") with [40; 70; 41]%N.
    unfold padrao_vf. change (str "VF") with [86; 70]%N.
    destruct aft as [|a [|b [|c r]]]; simpl;
      repeat match goal with
             | |- context [(?x =? ?y)%N] => destruct (x =? y)%N; simpl
             end;
      split; intros H; try discriminate; eauto; destruct H; discriminate.
Qed.

Lemma str_frac : str "frac" = [102; 114; 97; 99]%N.
Proof. vm_compute. reflexivity. Qed.

Lemma str_sqrt : str "sqrt" = [115; 113; 114; 116]%N.
Proof. vm_compute. reflexivity. Qed.

Lemma str_circunflexo : str "^" = [94]%N.
Proof. vm_compute. reflexivity. Qed.

Lemma padrao_calculo_eq :
  padrao_calculo =
  Alt (One (OneOf (str "∫∑∏√±×÷≤≥≠∞")))
      (Alt (word (str "frac")) (Alt (word (str "sqrt")) (word (str "^")))).
Proof. vm_compute. reflexivity. Qed.

Lemma exec_Alt ic r1 r2 st k :
  exec ic (Alt r1 r2) st k =
  match exec ic r1 st k with Some m => Some m | None => exec ic r2 st k end.
Proof. reflexivity. Qed.

Lemma exec_One ic i st k :
  exec ic (One i) st k =
  match after st with
  | x :: _ => if item_match ic i x then k (advance 1 st) else None
  | [] => None
  end.
Proof. destruct st as [b [|x a] g]; reflexivity. Qed.

(** The positions at which one of the signs of a calculation begins. *)
Lemma sinal_de_calculo_posicao s :
  (exists a1 a2, s = a1 ++ a2 /\
     (match a2 with
      | x :: _ => item_match false (OneOf (str "∫∑∏√±×÷≤≥≠∞")) x
      | [] => false
      end
      || starts false (str "frac") a2 || starts false (str "sqrt") a2
      || starts false (str "^") a2) = true) <-> tem_sinal_de_calculo s.
Proof.
  unfold tem_sinal_de_calculo. rewrite !contains_starts.
  generalize (str "∫∑∏√±×÷≤≥≠∞") (str "frac") (str "sqrt") (str "^").
  intros l0 l1 l2 l3. split.
  - intros (a1 & a2 & E & H). rewrite !orb_true_iff in H.
    destruct H as [[[H|H]|H]|H]; [left|right; left|right; right; left|right; right; right]; eauto.
    destruct a2 as [|x a2]; [discriminate|]. cbn [item_match] in H.
    apply existsb_exists in H as (c & Hin & Hc). apply N.eqb_eq in Hc. subst c.
    exists x. split; [apply list_elem_of_In; exact Hin|].
    rewrite E. apply elem_of_app. right. left.
  - intros [(c & Hin & Hc)|[(a1 & a2 & E & H)|[(a1 & a2 & E & H)|(a1 & a2 & E & H)]]].
    + apply list_elem_of_split in Hc as (l1' & l2' & ->). exists l1', (c :: l2').
      split; [reflexivity|]. rewrite !orb_true_iff. left. left. left.
      cbn [item_match]. apply existsb_exists. exists c.
      split; [apply list_elem_of_In; exact Hin|apply N.eqb_refl].
    + exists a1, a2. split; [exact E|]. rewrite H, ?orb_true_r. reflexivity.
    + exists a1, a2. split; [exact E|]. rewrite H, ?orb_true_r. reflexivity.
    + exists a1, a2. split; [exact E|]. rewrite H, ?orb_true_r. reflexivity.
Qed.

(** An attempt of [padrao_calculo] at one position. *)
Lemma sinal_de_calculo_aqui bef aft :
  is_Some (match_at false padrao_calculo bef aft) <->
  (match aft with
   | x :: _ => item_match false (OneOf (str "∫∑∏√±×÷≤≥≠∞")) x
   | [] => false
   end
   || starts false (str "frac") aft || starts false (str "sqrt") aft
   || starts false (str "^") aft) = true.
Proof.
  rewrite match_at_is_Some, padrao_calculo_eq.
  rewrite !exec_Alt, exec_One, !exec_word. cbn [after].
  destruct aft as [|x aft].
  - rewrite str_frac, str_sqrt, str_circunflexo. cbn [starts orb].
    split; [intros [? ?]|intros ?]; discriminate.
  - destruct (item_match false (OneOf (str "∫∑∏√±×÷≤≥≠∞")) x); cbn [orb];
      [split; intros _; [reflexivity|eexists; reflexivity]|].
    destruct (starts false (str "frac") (x :: aft)); cbn [orb];
      [split; intros _; [reflexivity|eexists; reflexivity]|].
    destruct (starts false (str "sqrt") (x :: aft)); cbn [orb];
      [split; intros _; [reflexivity|eexists; reflexivity]|].
    destruct (starts false (str "^") (x :: aft)); cbn [orb];
      [split; intros _; [reflexivity|eexists; reflexivity]|].
    split; [intros [? ?]|]; discriminate.
Qed.

Lemma calculo_presente s :
  is_Some (search false padrao_calculo s) <-> tem_sinal_de_calculo s.
Proof.
  rewrite <- sinal_de_calculo_posicao.
  apply search_is_Some. intros bef aft. apply sinal_de_calculo_aqui.
Qed.

(** C7. The classification rules apply in a fixed order: a (V) or (F)
    marker first, then the signs of a calculation, then the length, then
    the default; a text with both (V) and the integral sign is a
    true-or-false question. *)
Theorem classificacao_por_prioridade :
  forall texto,
    (tem_marcador_vf texto -> _classificar_tipo_questao texto = verdadeiro_falso)
    /\ (~ tem_marcador_vf texto -> tem_sinal_de_calculo texto ->
        _classificar_tipo_questao texto = calculo)
    /\ (~ tem_marcador_vf texto -> ~ tem_sinal_de_calculo texto ->
        (800 < length texto)%nat ->
        _classificar_tipo_questao texto = interpretacao_texto)
    /\ (~ tem_marcador_vf texto -> ~ tem_sinal_de_calculo texto ->
        (length texto <= 800)%nat ->
        _classificar_tipo_questao texto = multipla_escolha)
    /\ _classificar_tipo_questao (str "(V) ∫ f(x) dx") = verdadeiro_falso.
Proof.
  intros texto. unfold _classificar_tipo_questao.
  pose proof (vf_presente texto) as Hvf. pose proof (calculo_presente texto) as Hc.
  destruct (search false padrao_vf texto) as [m|].
  { assert (tem_marcador_vf texto) by (apply Hvf; eauto).
    repeat split; try tauto. }
  assert (Nvf : ~ tem_marcador_vf texto).
  { intros H. apply Hvf in H as [? ?]. discriminate. }
  destruct (search false padrao_calculo texto) as [m|].
  { assert (tem_sinal_de_calculo texto) by (apply Hc; eauto).
    repeat split; try tauto. }
  assert (Nc : ~ tem_sinal_de_calculo texto).
  { intros H. apply Hc in H as [? ?]. discriminate. }
  destruct (800 <? length texto)%nat eqn:L.
  - apply Nat.ltb_lt in L. repeat split; try tauto; intros; lia.
  - apply Nat.ltb_ge in L. repeat split; try tauto; intros; lia.
Qed.

(** ** The matcher and what a pattern can match *)

Lemma more_allowed_within hi n :
  more_allowed hi = true -> within (one_less hi) n -> within hi (S n).
Proof.
  destruct hi as [[|h]|]; simpl; intros; try discriminate; try lia; exact I.
Qed.

Lemma within_more_allowed hi n :
  within hi (S n) -> more_allowed hi = true /\ within (one_less hi) n.
Proof.
  destruct hi as [[|h]|]; simpl; intros; split; try reflexivity; try lia; exact I.
Qed.

Lemma rep_greedy_sound ic i lo hi gs bef aft k res :
  rep_greedy ic i lo hi gs bef aft k = Some res ->
  exists w aft', aft = w ++ aft' /\ Forall (fun x => item_match ic i x = true) w /\
    (lo <= length w)%nat /\ within hi (length w) /\
    k (MState (rev w ++ bef) aft' gs) = Some res.
Proof.
  assert (Hstop : forall lo hi bef aft,
    match lo with O => k (MState bef aft gs) | S _ => None end = Some res ->
    exists w aft', aft = w ++ aft' /\ Forall (fun x => item_match ic i x = true) w /\
      (lo <= length w)%nat /\ within hi (length w) /\
      k (MState (rev w ++ bef) aft' gs) = Some res).
  { intros lo' hi' bef' aft' H. destruct lo'; [|discriminate].
    exists [], aft'. repeat split; auto. destruct hi'; simpl; [lia|exact I]. }
  revert lo hi bef. induction aft as [|x aft IH]; intros lo hi bef H.
  - apply Hstop. exact H.
  - cbn [rep_greedy] in H.
    destruct (item_match ic i x && more_allowed hi) eqn:E; [|apply Hstop; exact H].
    apply andb_true_iff in E as [Ex Eh].
    destruct (rep_greedy ic i (Nat.pred lo) (one_less hi) gs (x :: bef) aft k) eqn:R.
    + injection H as ->. apply IH in R as (w & aft' & -> & F & L & W & K).
      exists (x :: w), aft'. simpl. rewrite <- app_assoc. repeat split; auto.
      * lia.
      * apply more_allowed_within; assumption.
    + apply Hstop. exact H.
Qed.

Lemma rep_lazy_sound ic i lo hi gs bef aft k res :
  rep_lazy ic i lo hi gs bef aft k = Some res ->
  exists w aft', aft = w ++ aft' /\ Forall (fun x => item_match ic i x = true) w /\
    (lo <= length w)%nat /\ within hi (length w) /\
    k (MState (rev w ++ bef) aft' gs) = Some res.
Proof.
  revert lo hi bef. induction aft as [|x aft IH]; intros lo hi bef H.
  - cbn [rep_lazy] in H. destruct lo; [|discriminate].
    destruct (k (MState bef [] gs)) eqn:K; [|discriminate]. injection H as ->.
    exists [], []. repeat split; auto. destruct hi; simpl; [lia|exact I].
  - cbn [rep_lazy] in H.
    assert (Hmore :
      (if item_match ic i x && more_allowed hi
       then rep_lazy ic i (Nat.pred lo) (one_less hi) gs (x :: bef) aft k
       else None) = Some res ->
      exists w aft', x :: aft = w ++ aft' /\ Forall (fun x => item_match ic i x = true) w /\
        (lo <= length w)%nat /\ within hi (length w) /\
        k (MState (rev w ++ bef) aft' gs) = Some res).
    { intros H'. destruct (item_match ic i x && more_allowed hi) eqn:E; [|discriminate].
      apply andb_true_iff in E as [Ex Eh].
      apply IH in H' as (w & aft' & -> & F & L & W & K).
      exists (x :: w), aft'. simpl. rewrite <- app_assoc. repeat split; auto.
      - lia.
      - apply more_allowed_within; assumption. }
    destruct lo; [|apply Hmore; exact H].
    destruct (k (MState bef (x :: aft) gs)) eqn:K; [|apply Hmore; exact H].
    injection H as ->. exists [], (x :: aft). repeat split; auto.
    destruct hi; simpl; [lia|exact I].
Qed.

Lemma rep_greedy_complete ic i gs k w : forall lo hi bef aft',
  Forall (fun x => item_match ic i x = true) w ->
  (lo <= length w)%nat -> within hi (length w) ->
  is_Some (k (MState (rev w ++ bef) aft' gs)) ->
  is_Some (rep_greedy ic i lo hi gs bef (w ++ aft') k).
Proof.
  induction w as [|x w IH]; intros lo hi bef aft' F L W K.
  - simpl in L. assert (lo = O) as -> by lia. simpl in K. simpl.
    destruct aft' as [|y aft']; cbn [rep_greedy]; [exact K|].
    destruct (item_match ic i y && more_allowed hi); [|exact K].
    destruct (rep_greedy ic i (Nat.pred 0) (one_less hi) gs (y :: bef) aft' k); [eauto|exact K].
  - inversion F as [|? ? Hx F']; subst. simpl in L, W.
    apply within_more_allowed in W as [Hm W].
    cbn [app rep_greedy]. rewrite Hx, Hm. cbn [andb].
    destruct (IH (Nat.pred lo) (one_less hi) (x :: bef) aft' F' ltac:(lia) W) as [r Hr].
    { simpl in K. rewrite <- app_assoc in K. exact K. }
    rewrite Hr. eauto.
Qed.

Lemma rep_lazy_complete ic i gs k w : forall lo hi bef aft',
  Forall (fun x => item_match ic i x = true) w ->
  (lo <= length w)%nat -> within hi (length w) ->
  is_Some (k (MState (rev w ++ bef) aft' gs)) ->
  is_Some (rep_lazy ic i lo hi gs bef (w ++ aft') k).
Proof.
  induction w as [|x w IH]; intros lo hi bef aft' F L W K.
  - simpl in L. assert (lo = O) as -> by lia. simpl in K. simpl.
    destruct K as [r Hr].
    destruct aft' as [|y aft']; cbn [rep_lazy]; rewrite Hr; eauto.
  - inversion F as [|? ? Hx F']; subst. simpl in L, W.
    apply within_more_allowed in W as [Hm W].
    cbn [app rep_lazy]. rewrite Hx, Hm. cbn [andb].
    destruct (IH (Nat.pred lo) (one_less hi) (x :: bef) aft' F' ltac:(lia) W) as [r Hr].
    { simpl in K. rewrite <- app_assoc in K. exact K. }
    rewrite Hr. destruct lo; [|eauto].
    destruct (k (MState bef (x :: w ++ aft') gs)); eauto.
Qed.

Lemma exec_sound ic r : forall st k res,
  exec ic r st k = Some res -> exists st', reach ic r st st' /\ k st' = Some res.
Proof.
  induction r as [|i|i lo hi g|r1 IH1 r2 IH2|r1 IH1 r2 IH2|n r1 IH1|r1 IH1| | | |];
    intros [bef aft gs] k res H; cbn [exec after before groups] in H.
  - exists (MState bef aft gs). split; [reflexivity|exact H].
  - destruct aft as [|x aft]; [discriminate|].
    destruct (item_match ic i x) eqn:E; [|discriminate].
    exists (MState (x :: bef) aft gs). split; [|exact H]. exists x. auto.
  - assert (exists w aft', aft = w ++ aft' /\ Forall (fun x => item_match ic i x = true) w /\
      (lo <= length w)%nat /\ within hi (length w) /\
      k (MState (rev w ++ bef) aft' gs) = Some res) as (w & aft' & -> & F & L & W & K).
    { destruct g; [apply rep_greedy_sound|apply rep_lazy_sound]; exact H. }
    exists (MState (rev w ++ bef) aft' gs). split; [|exact K].
    exists w. auto 10.
  - apply IH1 in H as (mid & R1 & H). apply IH2 in H as (st' & R2 & H).
    exists st'. split; [|exact H]. exists mid. auto.
  - destruct (exec ic r1 (MState bef aft gs) k) eqn:E.
    + injection H as ->. apply IH1 in E as (st' & R & K). exists st'. split; [left; exact R|exact K].
    + apply IH2 in H as (st' & R & K). exists st'. split; [right; exact R|exact K].
  - apply IH1 in H as (st1 & R & K).
    eexists. split; [|exact K]. exists st1. auto.
  - destruct (exec ic r1 (MState bef aft gs) Some) eqn:E; [|discriminate].
    apply IH1 in E as (st1 & R & _).
    exists (MState bef aft gs). split; [|exact H]. split; [eauto|reflexivity].
  - destruct bef; [|discriminate]. exists (MState [] aft gs).
    split; [split; reflexivity|exact H].
  - destruct aft as [|x [|y aft]]; try discriminate.
    + exists (MState bef [] gs). split; [|exact H]. split; [left|]; reflexivity.
    + destruct (N.eqb_spec x nl) as [->|]; [|discriminate].
      exists (MState bef [nl] gs). split; [|exact H]. split; [right|]; reflexivity.
  - destruct aft; [|discriminate]. exists (MState bef [] gs).
    split; [split; reflexivity|exact H].
  - destruct (xorb (word_before (MState bef aft gs)) (word_after (MState bef aft gs))) eqn:E;
      [|discriminate].
    exists (MState bef aft gs). split; [split; [exact E|reflexivity]|exact H].
Qed.

Lemma exec_complete ic r : forall st st' k,
  reach ic r st st' -> is_Some (k st') -> is_Some (exec ic r st k).
Proof.
  induction r as [|i|i lo hi g|r1 IH1 r2 IH2|r1 IH1 r2 IH2|n r1 IH1|r1 IH1| | | |];
    intros [bef aft gs] [bef' aft' gs'] k R K; cbn [reach after before groups] in R;
    cbn [exec after before groups].
  - injection R as -> -> ->. exact K.
  - destruct R as (x & -> & E & -> & ->). rewrite E. exact K.
  - destruct R as (w & -> & -> & -> & F & L & W).
    destruct g; [apply rep_greedy_complete|apply rep_lazy_complete]; assumption.
  - destruct R as (mid & R1 & R2). apply (IH1 _ mid); [exact R1|].
    apply (IH2 _ _ _ R2 K).
  - destruct R as [R|R].
    + destruct (IH1 _ _ k R K) as [r Hr]. rewrite Hr. eauto.
    + destruct (exec ic r1 (MState bef aft gs) k); [eauto|]. apply (IH2 _ _ _ R K).
  - destruct R as (st1 & R & E). apply (IH1 _ st1); [exact R|]. rewrite <- E. exact K.
  - destruct R as [(st1 & R) E]. injection E as -> -> ->.
    destruct (IH1 _ st1 Some R ltac:(eauto)) as [r Hr]. rewrite Hr. exact K.
  - destruct R as [-> E]. simplify_eq. exact K.
  - destruct R as [[->| ->] E]; simplify_eq; [exact K|].
    unfold nl. rewrite N.eqb_refl. exact K.
  - destruct R as [-> E]. simplify_eq. exact K.
  - destruct R as [X E]. simplify_eq.
    cbn [after before groups] in X. rewrite X. exact K.
Qed.
Lemma reach_consumes ic r : forall st st',
  reach ic r st st' ->
  exists w, after st = w ++ after st' /\ before st' = rev w ++ before st.
Proof.
  induction r as [|i|i lo hi g|r1 IH1 r2 IH2|r1 IH1 r2 IH2|n r1 IH1|r1 IH1| | | |];
    intros st st' R; cbn [reach] in R.
  - subst. exists []. auto.
  - destruct R as (x & E1 & _ & E2 & _). exists [x]. auto.
  - destruct R as (w & E1 & E2 & _). exists w. auto.
  - destruct R as (mid & R1 & R2).
    apply IH1 in R1 as (w1 & A1 & B1). apply IH2 in R2 as (w2 & A2 & B2).
    exists (w1 ++ w2). rewrite A1, A2, B2, B1, rev_app_distr, !app_assoc. auto.
  - destruct R as [R|R]; [apply IH1|apply IH2]; exact R.
  - destruct R as (st1 & R & ->). apply IH1 in R. exact R.
  - destruct R as [_ ->]. exists []. auto.
  - destruct R as [_ ->]. exists []. auto.
  - destruct R as [_ ->]. exists []. auto.
  - destruct R as [_ ->]. exists []. auto.
  - destruct R as [_ ->]. exists []. auto.
Qed.

Lemma consumed_app st w aft' gs' :
  consumed st (MState (rev w ++ before st) aft' gs') = w.
Proof.
  unfold consumed. cbn [before]. rewrite length_app, length_rev.
  replace (length w + length (before st) - length (before st))%nat with (length (rev w))
    by (rewrite length_rev; lia).
  rewrite take_app_length. apply rev_involutive.
Qed.

Lemma match_at_Some ic r bef aft m :
  match_at ic r bef aft = Some m ->
  m_start m = length bef /\ reach ic r (MState bef aft []) (m_final m).
Proof.
  unfold match_at. destruct (exec ic r (MState bef aft []) Some) as [st|] eqn:E; [|discriminate].
  intros [= <-]. apply exec_sound in E as (st' & R & [= ->]). auto.
Qed.

Lemma match_at_reach ic r bef aft :
  is_Some (match_at ic r bef aft) <-> exists st', reach ic r (MState bef aft []) st'.
Proof.
  split.
  - intros [m Hm]. apply match_at_Some in Hm as [_ R]. eauto.
  - intros [st' R]. apply match_at_is_Some. apply (exec_complete _ _ _ st'); eauto.
Qed.

(** The text of a match, [m.group(0)], is what lies between its start
    and its end. *)
Lemma whole_spec ic r bef aft m :
  match_at ic r bef aft = Some m ->
  aft = whole m ++ after (m_final m) /\ before (m_final m) = rev (whole m) ++ bef.
Proof.
  intros H. apply match_at_Some in H as [S R].
  apply reach_consumes in R as (w & A & B). cbn [after before] in A, B.
  assert (whole m = w) as ->; [|auto].
  unfold whole, m_end. rewrite S, B, length_app, length_rev.
  replace (length w + length bef - length bef)%nat with (length (rev w))
    by (rewrite length_rev; lia).
  rewrite take_app_length. apply rev_involutive.
Qed.

(** Every match of [finditer] is an attempt that succeeded at some
    position of the subject. *)
Lemma finditer_from_elem ic r m : forall aft skip bef,
  m ∈ finditer_from ic r skip bef aft ->
  exists a1 a2, aft = a1 ++ a2 /\ match_at ic r (rev a1 ++ bef) a2 = Some m.
Proof.
  assert (Hcons : forall x aft bef,
    (exists a1 a2, aft = a1 ++ a2 /\ match_at ic r (rev a1 ++ x :: bef) a2 = Some m) ->
    exists a1 a2, x :: aft = a1 ++ a2 /\ match_at ic r (rev a1 ++ bef) a2 = Some m).
  { intros x aft bef (a1 & a2 & -> & M). exists (x :: a1), a2. split; [reflexivity|].
    simpl. rewrite <- app_assoc. exact M. }
  induction aft as [|x aft IH]; intros skip bef H.
  - destruct skip; simpl in H; [|inversion H].
    destruct (match_at ic r bef []) eqn:M; [|inversion H].
    apply list_elem_of_singleton in H as ->. exists [], []. auto.
  - destruct skip; cbn [finditer_from] in H.
    + destruct (match_at ic r bef (x :: aft)) eqn:M.
      * apply elem_of_cons in H as [->|H]; [exists [], (x :: aft); auto|].
        apply Hcons. eapply IH. exact H.
      * apply Hcons. eapply IH. exact H.
    + apply Hcons. eapply IH. exact H.
Qed.

Lemma finditer_elem ic r s m :
  m ∈ finditer ic r s ->
  exists a1 a2, s = a1 ++ a2 /\ match_at ic r (rev a1) a2 = Some m.
Proof.
  intros H. apply finditer_from_elem in H as (a1 & a2 & E & M).
  rewrite app_nil_r in M. eauto.
Qed.
(** ** Words, digits and markers *)

Lemma reach_word ic w : forall st st',
  reach ic (word w) st st' <->
  starts ic w (after st) = true /\ st' = advance (length w) st.
Proof.
  induction w as [|c w IH]; intros [bef aft gs] st'.
  - simpl. rewrite advance_0. split; [auto|intros [_ ->]; reflexivity].
  - destruct w as [|c' w].
    + cbn [word reach starts after before groups length]. split.
      * intros (x & -> & E & B & G). rewrite E. split; [reflexivity|].
        destruct st' as [b a g]. cbn [after before groups] in *. subst.
        reflexivity.
      * destruct aft as [|x aft]; intros [S ->]; [discriminate|].
        rewrite andb_true_r in S. exists x. auto.
    + change (word (c :: c' :: w)) with (Seq (One (Lit c)) (word (c' :: w))).
      cbn [reach after before groups]. split.
      * intros (mid & (x & E & M & B & G) & R). apply IH in R as [S ->].
        destruct mid as [b a g]. cbn [after before groups] in *. subst.
        split; [|symmetry; apply (advance_S (length (c' :: w)))].
        change (starts ic (c :: c' :: w) (x :: a))
          with (item_match ic (Lit c) x && starts ic (c' :: w) a).
        rewrite M, S. reflexivity.
      * destruct aft as [|x aft]; intros [S ->]; [discriminate|].
        change (starts ic (c :: c' :: w) (x :: aft))
          with (item_match ic (Lit c) x && starts ic (c' :: w) aft) in S.
        apply andb_true_iff in S as [M S].
        exists (MState (x :: bef) aft gs). split; [exists x; auto|].
        apply IH. split; [exact S|]. rewrite (advance_S (length (c' :: w))). reflexivity.
Qed.

Lemma advance_app w post bef gs :
  advance (length w) (MState bef (w ++ post) gs) = MState (rev w ++ bef) post gs.
Proof.
  unfold advance. cbn [after before groups].
  rewrite take_app_length, drop_app_length. reflexivity.
Qed.

Lemma consumed_rev st st' w :
  before st' = rev w ++ before st -> consumed st st' = w.
Proof.
  intros E. unfold consumed. rewrite E, length_app, length_rev.
  replace (length w + length (before st) - length (before st))%nat with (length (rev w))
    by (rewrite length_rev; lia).
  rewrite take_app_length. apply rev_involutive.
Qed.

(** A run of digits that ends at a character that is not a digit is
    determined by the text it begins. *)
Lemma run_unique (p : char -> bool) (c : char) ds ds' post post' :
  p c = false ->
  Forall (fun x => p x = true) ds -> Forall (fun x => p x = true) ds' ->
  ds ++ c :: post = ds' ++ c :: post' -> ds = ds' /\ post = post'.
Proof.
  intros Hc F. revert ds'. induction F as [|x ds Hx F IH]; intros ds' F' E.
  - destruct F' as [|y ds' Hy F']; simpl in E.
    + injection E as ->. auto.
    + injection E as <- _. congruence.
  - destruct F' as [|y ds' Hy F']; simpl in E.
    + injection E as -> _. congruence.
    + injection E as -> E. destruct (IH ds' F' E) as [-> ->]. auto.
Qed.

(** *** Decimal numbers *)

Lemma uint_text_digits d : Forall (fun x => is_digit x = true) (uint_text d).
Proof. induction d; simpl; constructor; auto. Qed.

Lemma int_of_uint_text_acc d : forall acc : nat,
  fold_left (fun a x => (10 * a + digit_val x)%Z) (uint_text d) (Z.of_nat acc) =
  Z.of_nat (Nat.of_uint_acc d acc).
Proof.
  induction d; intros acc; cbn [uint_text fold_left Nat.of_uint_acc];
    try reflexivity; rewrite <- IHd; f_equal; rewrite Nat.tail_mul_spec;
    unfold digit_val; cbn [N.sub]; lia.
Qed.

Lemma int_of_nat_text n : int_of (nat_text n) = Z.of_nat n.
Proof.
  unfold int_of, nat_text. rewrite (int_of_uint_text_acc _ 0).
  change (Nat.of_uint_acc (Nat.to_uint n) 0) with (Nat.of_uint (Nat.to_uint n)).
  rewrite DecimalNat.Unsigned.of_to. reflexivity.
Qed.

Lemma nat_text_nonempty n : nat_text n <> [].
Proof.
  unfold nat_text. intros E.
  assert (Nat.to_uint n = Decimal.Nil) as H.
  { destruct (Nat.to_uint n); simpl in E; congruence. }
  pose proof (DecimalNat.Unsigned.of_to n) as O. rewrite H in O. simpl in O. subst n.
  discriminate H.
Qed.

Lemma nat_text_digits n : Forall (fun x => is_digit x = true) (nat_text n).
Proof. apply uint_text_digits. Qed.
Lemma occurs_spec w s : occurs w s = true <-> contains w s.
Proof.
  rewrite contains_starts. induction s as [|x s IH]; cbn [occurs].
  - rewrite orb_false_r. split.
    + intros H. exists [], []. auto.
    + intros (a1 & a2 & E & H). symmetry in E. apply app_eq_nil in E as [-> ->]. exact H.
  - rewrite orb_true_iff, IH. split.
    + intros [H|(a1 & a2 & -> & H)]; [exists [], (x :: s); auto|].
      exists (x :: a1), a2. auto.
    + intros (a1 & a2 & E & H). destruct a1 as [|y a1]; simpl in E.
      * subst a2. left. exact H.
      * injection E as -> ->. right. eauto.
Qed.

Lemma not_contains w s : occurs w s = false -> ~ contains w s.
Proof. intros H C. apply occurs_spec in C. congruence. Qed.

(** A word whose first character does not occur again in it cannot
    begin before another occurrence of that character and reach it: an
    occurrence that begins earlier lies wholly before it. *)
Lemma inicio_antes (c : char) w' v b1 b2 rest post :
  c ∉ w' -> b2 <> [] ->
  b2 ++ (c :: v) ++ rest = (c :: w') ++ post ->
  contains (c :: w') (b1 ++ b2).
Proof.
  intros Hc Hb E. apply app_eq_inv in E as [(k & -> & _)|(k & E1 & E2)].
  - exists b1, k. reflexivity.
  - destruct b2 as [|x b2]; [congruence|]. simpl in E1. injection E1 as <- ->.
    destruct k as [|y k].
    + exists b1, []. rewrite !app_nil_r. reflexivity.
    + simpl in E2. injection E2 as <- _. exfalso. apply Hc.
      apply elem_of_app. right. left.
Qed.

Lemma str_marcador : str "[PAGINA:" = [91; 80; 65; 71; 73; 78; 65; 58]%N.
Proof. vm_compute. reflexivity. Qed.

Lemma str_fecha : str "]" = [93]%N.
Proof. vm_compute. reflexivity. Qed.

Lemma marcador_aqui w bef aft m :
  match_at false (Seq (word w) (Seq (Group 1 (plus Digit)) (One (Lit 93%N)))) bef aft
    = Some m ->
  exists ds post, aft = w ++ ds ++ 93%N :: post /\ ds <> [] /\
    Forall (fun x => is_digit x = true) ds /\ group m 1 = ds.
Proof.
  intros H. apply match_at_Some in H as [_ R]. unfold plus in R. cbn [reach] in R.
  destruct R as (mid & Rw & mid2 & (st1 & (ds & A & B & G & F & L & _) & ->)
                 & (x & A' & M & B' & G')).
  apply reach_word in Rw as [S ->]. cbn [after] in S.
  apply starts_exact in S as [post0 ->]. rewrite advance_app in A, B, G, G'.
  cbn [after before groups] in *.
  cbn [item_match] in M. apply N.eqb_eq in M. subst x.
  exists ds, (after (m_final m)). repeat split.
  - rewrite A, A'. reflexivity.
  - intros ->. simpl in L. lia.
  - exact F.
  - unfold group. rewrite G', G. cbn [lookup_group Nat.eqb].
    apply consumed_rev. cbn [before]. exact B.
Qed.

Lemma marcador_aqui_Some w bef ds post :
  ds <> [] -> Forall (fun x => is_digit x = true) ds ->
  exists m,
    match_at false (Seq (word w) (Seq (Group 1 (plus Digit)) (One (Lit 93%N)))) bef
      (w ++ ds ++ 93%N :: post) = Some m /\ group m 1 = ds.
Proof.
  intros Hne F.
  destruct (proj2 (match_at_reach false
              (Seq (word w) (Seq (Group 1 (plus Digit)) (One (Lit 93%N)))) bef
              (w ++ ds ++ 93%N :: post))) as [m Hm].
  - exists (MState (93%N :: rev ds ++ rev w ++ bef) post
              [(1%nat, consumed (MState (rev w ++ bef) (ds ++ 93%N :: post) [])
                         (MState (rev ds ++ rev w ++ bef) (93%N :: post) []))]).
    unfold plus. cbn [reach].
    exists (MState (rev w ++ bef) (ds ++ 93%N :: post) []). split.
    { apply reach_word. cbn [after]. split; [apply starts_exact; eauto|].
      rewrite advance_app. reflexivity. }
    eexists. split.
    + exists (MState (rev ds ++ rev w ++ bef) (93%N :: post) []). split; [|reflexivity].
      exists ds. cbn [after before groups]. repeat split; auto.
      destruct ds; [congruence|simpl; lia].
    + exists 93%N. cbn [after before groups item_match]. auto.
  - exists m. split; [exact Hm|].
    apply marcador_aqui in Hm as (ds' & post' & E & _ & F' & ->).
    apply app_inv_head in E.
    apply (run_unique is_digit 93%N) in E as [E _]; auto.
Qed.

Lemma pagina_com_marcador contexto p :
  _extrair_pagina_contexto contexto = Some p -> contains (str "[PAGINA:") contexto.
Proof.
  unfold _extrair_pagina_contexto, search, padrao_pagina.
  destruct (search_from false _ [] contexto) as [m|] eqn:S; [|discriminate].
  intros _. apply search_from_Some in S as (a1 & a2 & E & M & _).
  apply marcador_aqui in M as (ds & post & -> & _).
  exists a1, (ds ++ 93%N :: post). exact E.
Qed.

(** X1. Without the text "[PAGINA:" in the context there is no page. *)
Theorem pagina_sem_marcador contexto :
  ~ contains (str "[PAGINA:") contexto -> _extrair_pagina_contexto contexto = None.
Proof.
  intros H. destruct (_extrair_pagina_contexto contexto) as [p|] eqn:E; [|reflexivity].
  exfalso. apply H. apply (pagina_com_marcador contexto p). exact E.
Qed.

Lemma pagina_sem_marcador_witness :
  _extrair_pagina_contexto (str "[MATERIA:Física] pagina 3") = None.
Proof. apply pagina_sem_marcador. apply not_contains. vm_compute. reflexivity. Defined.

Lemma primeiro_marcador antes n depois :
  ~ contains (str "[PAGINA:") antes ->
  _extrair_pagina_contexto
    (antes ++ str "[PAGINA:" ++ nat_text n ++ str "]" ++ depois) = Some (Z.of_nat n).
Proof.
  unfold _extrair_pagina_contexto, search, padrao_pagina.
  rewrite str_fecha. generalize str_marcador. generalize (str "[PAGINA:").
  intros w Hw H.
  destruct (marcador_aqui_Some w (rev antes ++ []) (nat_text n) depois
              (nat_text_nonempty n) (nat_text_digits n)) as (m & M & G).
  match goal with
  | |- match ?s with Some _ => _ | None => _ end = _ => assert (s = Some m) as ->
  end.
  { apply search_from_Some. exists antes, (w ++ nat_text n ++ 93%N :: depois).
    split; [reflexivity|]. split; [exact M|].
    intros b1 b2 Hb E.
    destruct (match_at false _ (rev b1 ++ []) (b2 ++ w ++ nat_text n ++ 93%N :: depois))
      as [m'|] eqn:M'; [|reflexivity].
    apply marcador_aqui in M' as (ds & post & E' & _). exfalso. apply H.
    rewrite E. subst w.
    apply (inicio_antes 91%N [80; 65; 71; 73; 78; 65; 58]%N [80; 65; 71; 73; 78; 65; 58]%N
             b1 b2 (nat_text n ++ 93%N :: depois) (ds ++ 93%N :: post)).
    - rewrite !elem_of_cons, elem_of_nil. intros X.
      repeat destruct X as [X|X]; try discriminate X; exact X.
    - exact Hb.
    - exact E'. }
  rewrite G, int_of_nat_text. reflexivity.
Qed.

(** X2. The page is the number of the first marker. *)
Theorem pagina_primeiro_marcador antes n depois :
  ~ contains (str "[PAGINA:") antes ->
  _extrair_pagina_contexto
    (antes ++ str "[PAGINA:" ++ nat_text n ++ str "]" ++ depois) = Some (Z.of_nat n).
Proof. apply primeiro_marcador. Qed.

Lemma pagina_primeiro_marcador_witness :
  _extrair_pagina_contexto
    ([nl] ++ str "[PAGINA:" ++ nat_text 3 ++ str "]" ++
     nl :: str "texto" ++ nl :: str "[PAGINA:" ++ nat_text 4 ++ str "]" ++ [nl])
  = Some 3%Z.
Proof.
  apply (pagina_primeiro_marcador [nl] 3). apply not_contains. vm_compute. reflexivity.
Defined.
(** ** The shape of a question match *)

Lemma questao_aqui bef aft m :
  match_at false padrao_questao bef aft = Some m ->
  exists sp ds sp2 sp3 post,
    aft = nl :: sp ++ ds ++ sp2 ++ 46%N :: sp3 ++ group m 2 ++ post /\
    Forall (fun x => is_space x = true) sp /\
    Forall (fun x => is_digit x = true) ds /\
    (1 <= length ds <= 3)%nat /\
    Forall (fun x => is_space x = true) sp2 /\
    Forall (fun x => is_space x = true) sp3 /\ sp3 <> [] /\
    group m 1 = ds /\ group m 2 <> [] /\
    m_start m = length bef /\ post = after (m_final m).
Proof.
  intros H. apply match_at_Some in H as [S R].
  unfold padrao_questao, star, plus, plus_lazy in R. cbn [seq reach] in R.
  destruct R as (s1 & (x & A1 & M1 & B1 & G1)
     & s2 & (sp & A2 & B2 & G2 & F2 & _ & _)
     & s3 & (s3' & (ds & A3 & B3 & G3 & F3 & L3 & W3) & ->)
     & s4 & (sp2 & A4 & B4 & G4 & F4 & _ & _)
     & s5 & (y & A5 & M5 & B5 & G5)
     & s6 & (sp3 & A6 & B6 & G6 & F6 & L6 & _)
     & s7 & (s7' & (body & A7 & B7 & G7 & F7 & L7 & _) & ->)
     & _ & E).
  cbn [after before groups item_match within] in *.
  apply N.eqb_eq in M1, M5. subst x y.
  assert (group m 2 = body) as G.
  { unfold group. rewrite E. cbn [groups lookup_group Nat.eqb].
    apply consumed_rev. exact B7. }
  assert (group m 1 = ds) as G'.
  { unfold group. rewrite E. cbn [groups lookup_group Nat.eqb].
    rewrite G7, G6, G5, G4. cbn [lookup_group Nat.eqb].
    apply consumed_rev. exact B3. }
  exists sp, ds, sp2, sp3, (after (m_final m)).
  rewrite G, G'. repeat split; auto; try lia.
  - rewrite A1, A2, A3, A4, A5, A6, A7, E. reflexivity.
  - intros ->. simpl in L6. lia.
  - intros ->. simpl in L7. lia.
Qed.

(** ** The pages of the document *)

Lemma ler_paginas_acc paginas : forall n m acc,
  ler_paginas paginas n m acc =
  (fst (ler_paginas paginas n m []), acc ++ snd (ler_paginas paginas n m [])).
Proof.
  induction paginas as [|[t|] ps IH]; intros n m acc; cbn [ler_paginas].
  - rewrite app_nil_r. reflexivity.
  - rewrite IH. symmetry. rewrite IH. cbn [fst snd]. f_equal.
    destruct (_detectar_materia m t); rewrite <- ?app_assoc; reflexivity.
  - apply IH.
Qed.

Lemma ler_paginas_falhas k paginas : forall n m acc,
  ler_paginas (replicate k None ++ paginas) n m acc = ler_paginas paginas (k + n) m acc.
Proof.
  induction k as [|k IH]; intros n m acc; [reflexivity|].
  cbn [replicate app ler_paginas]. rewrite IH. f_equal. lia.
Qed.

Lemma ler_paginas_inicio k t resto :
  exists depois,
    snd (ler_paginas (replicate k None ++ Some t :: resto) 0 None []) =
    nl :: str "[PAGINA:" ++ nat_text k ++ str "]" ++ nl :: depois.
Proof.
  rewrite ler_paginas_falhas, Nat.add_0_r. cbn [ler_paginas].
  rewrite ler_paginas_acc. cbn [snd].
  destruct (_detectar_materia None t); cbn [app]; rewrite <- ?app_assoc; cbn [app];
    rewrite <- ?app_assoc; eexists; reflexivity.
Qed.

(** ** [str.strip] *)

Lemma lstrip_id s :
  match s with x :: _ => is_space x = false | [] => True end -> lstrip s = s.
Proof. destruct s as [|x s]; [reflexivity|]. simpl. intros ->. reflexivity. Qed.

Lemma lstrip_head s :
  match lstrip s with x :: _ => is_space x = false | [] => True end.
Proof.
  induction s as [|x s IH]; simpl; [exact I|].
  destruct (is_space x) eqn:E; [exact IH|exact E].
Qed.

Lemma lstrip_idemp s : lstrip (lstrip s) = lstrip s.
Proof. apply lstrip_id, lstrip_head. Qed.

Lemma lstrip_suffix s :
  exists sp, s = sp ++ lstrip s /\ Forall (fun x => is_space x = true) sp.
Proof.
  induction s as [|x s (sp & E & F)]; simpl.
  - exists []. auto.
  - destruct (is_space x) eqn:Ex.
    + exists (x :: sp). split; [simpl; congruence|constructor; assumption].
    + exists []. auto.
Qed.

Lemma rstrip_prefix s :
  exists sp, s = rstrip s ++ sp /\ Forall (fun x => is_space x = true) sp.
Proof.
  unfold rstrip. destruct (lstrip_suffix (rev s)) as (sp & E & F).
  exists (rev sp). split.
  - rewrite <- rev_app_distr, <- E, rev_involutive. reflexivity.
  - apply Forall_rev. exact F.
Qed.

Lemma rstrip_idemp s : rstrip (rstrip s) = rstrip s.
Proof. unfold rstrip. rewrite rev_involutive, lstrip_idemp. reflexivity. Qed.

Lemma rstrip_head s :
  match s with x :: _ => is_space x = false | [] => True end ->
  match rstrip s with x :: _ => is_space x = false | [] => True end.
Proof.
  intros H. destruct (rstrip_prefix s) as (sp & E & _).
  destruct (rstrip s) as [|y r]; [exact I|]. rewrite E in H. exact H.
Qed.

Lemma strip_idemp s : strip (strip s) = strip s.
Proof.
  unfold strip. rewrite (lstrip_id (rstrip (lstrip s))).
  - apply rstrip_idemp.
  - apply rstrip_head, lstrip_head.
Qed.

(** ** Segmentation *)

Lemma questoes_brutas_Forall (P : questao_bruta -> Prop) self texto ms :
  (forall m prox, m ∈ ms -> (5 < length (strip (group m 2)))%nat ->
     P (QuestaoBruta (int_of (group m 1)) (strip (group m 2))
          (_extrair_materia_contexto self (slice texto (m_start m - 500) (m_start m)))
          (_extrair_pagina_contexto (slice texto (m_start m - 500) (m_start m))) prox)) ->
  Forall P (questoes_brutas self texto ms).
Proof.
  induction ms as [|m ms IH]; intros H; cbn [questoes_brutas]; [constructor|].
  assert (Forall P (questoes_brutas self texto ms)) as Hr.
  { apply IH. intros m' prox Hin. apply H. right. exact Hin. }
  destruct (strip (group m 2)) as [|x body] eqn:E; [exact Hr|].
  destruct (5 <? length (x :: body))%nat eqn:L; [|exact Hr].
  constructor; [|exact Hr]. rewrite <- E. apply H; [left|].
  rewrite E. apply Nat.ltb_lt. exact L.
Qed.

Lemma digit_val_bound (x : N) : is_digit x = true -> (0 <= digit_val x <= 9)%Z.
Proof.
  unfold is_digit, in_range, digit_val. rewrite andb_true_iff, !N.leb_le. lia.
Qed.

Lemma int_of_3 ds :
  Forall (fun x => is_digit x = true) ds -> (length ds <= 3)%nat ->
  (0 <= int_of ds <= 999)%Z.
Proof.
  intros F L. destruct ds as [|a [|b [|c [|d ds]]]]; simpl in L; try lia;
    unfold int_of; cbn [fold_left];
    repeat match goal with
           | H : Forall _ (_ :: _) |- _ => inversion H; subst; clear H
           end;
    repeat match goal with
           | H : is_digit _ = true |- _ => apply digit_val_bound in H
           end; lia.
Qed.

(** X3. Every question that the segmentation hands on has a body without
    white space at its ends and of more than five characters: a shorter
    match is dropped. *)
Theorem corpo_da_questao self texto :
  Forall (fun b => strip (b_texto b) = b_texto b /\ (5 < length (b_texto b))%nat)
    (segmentar self texto).
Proof.
  apply questoes_brutas_Forall. intros m prox _ L. cbn [b_texto].
  split; [apply strip_idemp|exact L].
Qed.

(** X4. A question number has one to three digits: it lies between 0 and
    999. *)
Theorem numero_da_questao self texto :
  Forall (fun b => (0 <= b_numero b <= 999)%Z) (segmentar self texto).
Proof.
  apply questoes_brutas_Forall. intros m prox Hin _. cbn [b_numero].
  apply finditer_elem in Hin as (a1 & a2 & _ & M).
  apply questao_aqui in M as (sp & ds & sp2 & sp3 & post & _ & _ & F & L & _ & _ & _ & -> & _).
  apply int_of_3; [exact F|exact (proj2 L)].
Qed.

Lemma contexto_do_inicio k depois a1 a2 m :
  nl :: str "[PAGINA:" ++ nat_text k ++ str "]" ++ nl :: depois = a1 ++ a2 ->
  match_at false padrao_questao (rev a1) a2 = Some m ->
  exists resto, a1 = nl :: str "[PAGINA:" ++ nat_text k ++ str "]" ++ resto.
Proof.
  rewrite str_marcador, str_fecha.
  generalize (nat_text_digits k). generalize (nat_text k). intros dk Fk E M.
  apply questao_aqui in M as (sp & ds & sp2 & sp3 & post & -> & Fs & Fd & [Ld _] & _).
  destruct a1 as [|y a1]; cbn [app] in E.
  - exfalso. injection E as E.
    destruct sp as [|s sp].
    + destruct ds as [|d ds]; [simpl in Ld; lia|]. injection E as <- _.
      inversion Fd; discriminate.
    + injection E as <- _. inversion Fs; discriminate.
  - injection E as <- E.
    assert (([91; 80; 65; 71; 73; 78; 65; 58]%N ++ dk ++ [93%N]) ++ nl :: depois
            = a1 ++ nl :: sp ++ ds ++ sp2 ++ 46%N :: sp3 ++ group m 2 ++ post) as E'.
    { rewrite <- E, <- !app_assoc. reflexivity. }
    clear E. apply app_eq_inv in E' as [(k0 & E1 & E2)|(k0 & E1 & E2)].
    + destruct k0 as [|z k0].
      * exists []. rewrite app_nil_r in E1. rewrite <- E1, ?app_nil_r, <- ?app_assoc. reflexivity.
      * exfalso. injection E2 as Ez _. subst z.
        assert (nl ∈ [91; 80; 65; 71; 73; 78; 65; 58]%N ++ dk ++ [93%N]) as Hin.
        { rewrite E1. apply elem_of_app. right. left. }
        rewrite !elem_of_app in Hin. destruct Hin as [Hin|[Hin|Hin]].
        -- rewrite !elem_of_cons, elem_of_nil in Hin.
           repeat destruct Hin as [Hin|Hin]; try discriminate Hin; exact Hin.
        -- rewrite Forall_forall in Fk. apply Fk in Hin. discriminate Hin.
        -- apply list_elem_of_singleton in Hin. discriminate Hin.
    + exists k0. rewrite E1, <- ?app_assoc. reflexivity.
Qed.

(** X5. In a document of at most 500 characters every question is given
    the number of the first page that could be read, whatever page it is
    on: the context of a question then begins at the start of the
    document, and the page is read from the first marker of the
    context. *)
Theorem pagina_em_documento_curto self k t resto :
  let texto := snd (ler_paginas (replicate k None ++ Some t :: resto) 0 None []) in
  (length texto <= 500)%nat ->
  Forall (fun b => b_pagina b = Some (Z.of_nat k)) (segmentar self texto).
Proof.
  intros texto L. apply questoes_brutas_Forall. intros m prox Hin _. cbn [b_pagina].
  apply finditer_elem in Hin as (a1 & a2 & E & M).
  destruct (ler_paginas_inicio k t resto) as (depois & T). fold texto in T.
  pose proof (match_at_Some _ _ _ _ _ M) as [S _]. rewrite length_rev in S.
  assert (length a1 <= 500)%nat as La.
  { rewrite E, length_app in L. lia. }
  rewrite T in E. destruct (contexto_do_inicio _ _ _ _ _ E M) as (r & Ea).
  unfold slice. rewrite S. replace (length a1 - 500)%nat with O by lia.
  rewrite Nat.sub_0_r, drop_0, T, E, take_app_length, Ea.
  apply (primeiro_marcador [nl] k r). apply not_contains. vm_compute. reflexivity.
Qed.

Lemma pagina_em_documento_curto_witness :
  Forall (fun b => b_pagina b = Some 1%Z)
    (segmentar (Extractor None ∅)
       (snd (ler_paginas [None; Some (nl :: str "1. Primeira questao");
                          Some (nl :: str "2. Segunda questao")] 0 None []))).
Proof.
  apply (pagina_em_documento_curto (Extractor None ∅) 1 (nl :: str "1. Primeira questao")
           [Some (nl :: str "2. Segunda questao")]).
  vm_compute. lia.
Defined.

(** ** The instruction *)

Lemma search_is_Some_prop ic r s (P : text -> Prop) :
  (forall bef aft, is_Some (match_at ic r bef aft) <-> P aft) ->
  is_Some (search ic r s) <-> exists a1 a2, s = a1 ++ a2 /\ P a2.
Proof.
  intros Hp. unfold search. split.
  - intros [m Hm]. apply search_from_Some in Hm as (a1 & a2 & E & M & _).
    exists a1, a2. split; [exact E|]. apply (Hp (rev a1 ++ [])). eauto.
  - intros (a1 & a2 & E & P2).
    destruct (search_from ic r [] s) eqn:S; [eauto|].
    rewrite search_from_None in S. specialize (S a1 a2 E).
    apply (Hp (rev a1 ++ [])) in P2 as [m Hm]. congruence.
Qed.

Lemma lstrip_spaces sp s :
  Forall (fun x => is_space x = true) sp -> lstrip (sp ++ s) = lstrip s.
Proof. induction 1 as [|x sp Hx F IH]; simpl; [reflexivity|]. rewrite Hx. exact IH. Qed.

Lemma lstrip_nil s : lstrip s = [] <-> Forall (fun x => is_space x = true) s.
Proof.
  induction s as [|x s IH]; simpl.
  - split; [constructor|reflexivity].
  - destruct (is_space x) eqn:E.
    + rewrite IH. split; [constructor; assumption|]. inversion 1; assumption.
    + split; [discriminate|]. inversion 1; congruence.
Qed.

Lemma lstrip_app s t : lstrip s <> [] -> lstrip (s ++ t) = lstrip s ++ t.
Proof.
  induction s as [|x s IH]; simpl; [congruence|].
  destruct (is_space x); [exact IH|reflexivity].
Qed.

Lemma strip_spaces_l sp s :
  Forall (fun x => is_space x = true) sp -> strip (sp ++ s) = strip s.
Proof. intros F. unfold strip. rewrite lstrip_spaces by exact F. reflexivity. Qed.

Lemma rstrip_spaces s sp :
  Forall (fun x => is_space x = true) sp -> rstrip (s ++ sp) = rstrip s.
Proof.
  intros F. unfold rstrip. rewrite rev_app_distr, lstrip_spaces; [reflexivity|].
  apply Forall_rev. exact F.
Qed.

Lemma strip_spaces_r s sp :
  Forall (fun x => is_space x = true) sp -> strip (s ++ sp) = strip s.
Proof.
  intros F. unfold strip. destruct (lstrip s) as [|y u] eqn:E.
  - assert (lstrip (s ++ sp) = []) as ->; [|reflexivity].
    apply lstrip_nil, Forall_app. split; [apply lstrip_nil; exact E|exact F].
  - rewrite lstrip_app by congruence. rewrite E. apply rstrip_spaces. exact F.
Qed.

(** The shape of a match of the instruction pattern with the labels
    [L1] and [L2]. *)
Lemma instrucao_aqui L1 L2 bef aft m :
  match_at false
    (seq [Alt (word L1) (word L2); One (Lit 58%N); star Space; Group 1 (plus_lazy Dot);
          fim_instrucao]) bef aft = Some m ->
  exists L sp post,
    (L = L1 \/ L = L2) /\
    aft = L ++ 58%N :: sp ++ group m 1 ++ post /\
    Forall (fun x => is_space x = true) sp /\ group m 1 <> [] /\
    ((exists post', post = nl :: 40%N :: post') \/ post = [] \/ post = [nl]).
Proof.
  intros H. apply match_at_Some in H as [_ R].
  unfold star, plus_lazy, fim_instrucao in R. cbn [seq reach] in R.
  destruct R as (s1 & RL & s2 & (x & A2 & M2 & B2 & G2)
    & s3 & (sp & A3 & B3 & G3 & F3 & _ & _)
    & s4 & (s4' & (body & A4 & B4 & G4 & F4 & L4 & _) & ->)
    & RF & E).
  cbn [after before groups item_match] in *. apply N.eqb_eq in M2. subst x.
  assert (exists L, (L = L1 \/ L = L2) /\ aft = L ++ after s1) as (L & HL & A1).
  { destruct RL as [RL|RL]; apply reach_word in RL as [S ->]; cbn [after] in S;
      apply starts_exact in S as [p ->]; rewrite advance_app; cbn [after]; eauto. }
  assert (group m 1 = body) as G.
  { unfold group. rewrite E. cbn [groups lookup_group Nat.eqb].
    apply consumed_rev. exact B4. }
  exists L, sp, (after (m_final m)). rewrite G. repeat split; auto.
  - rewrite A1, A2, A3, A4, E. reflexivity.
  - intros ->. simpl in L4. lia.
  - rewrite E. cbn [after]. destruct RF as (st1 & [RF|RF]).
    + left. destruct RF as (t1 & (x & X1 & M1 & _) & (y & Y1 & N1 & _)).
      cbn [after item_match] in *. apply N.eqb_eq in M1, N1. subst x y.
      exists (after st1). rewrite X1, Y1. reflexivity.
    + right. destruct RF as [RF _]. exact RF.
Qed.

Lemma instrucao_aqui_Some L1 L2 bef L x rest :
  L = L1 \/ L = L2 ->
  is_Some (match_at false
    (seq [Alt (word L1) (word L2); One (Lit 58%N); star Space; Group 1 (plus_lazy Dot);
          fim_instrucao]) bef (L ++ 58%N :: x :: rest)).
Proof.
  intros HL. apply match_at_reach.
  exists (MState (rev (x :: rest) ++ 58%N :: rev L ++ bef) []
            [(1%nat, consumed (MState (58%N :: rev L ++ bef) (x :: rest) [])
                       (MState (rev (x :: rest) ++ 58%N :: rev L ++ bef) [] []))]).
  unfold star, plus_lazy, fim_instrucao. cbn [seq reach].
  exists (MState (rev L ++ bef) (58%N :: x :: rest) []). split.
  { destruct HL as [<-| <-]; [left|right]; apply reach_word; cbn [after];
      (split; [apply starts_exact; eauto|rewrite advance_app; reflexivity]). }
  exists (MState (58%N :: rev L ++ bef) (x :: rest) []). split.
  { exists 58%N. cbn [after before groups item_match]. auto. }
  exists (MState (58%N :: rev L ++ bef) (x :: rest) []). split.
  { exists []. cbn [after before groups app rev length within]. repeat split; auto. }
  eexists. split.
  { exists (MState (rev (x :: rest) ++ 58%N :: rev L ++ bef) [] []). split; [|reflexivity].
    exists (x :: rest). cbn [after before groups within]. rewrite app_nil_r.
    repeat split; auto.
    - apply Forall_forall. reflexivity.
    - simpl. lia. }
  split; [|reflexivity]. eexists. right. cbn [reach after]. split; [left; reflexivity|reflexivity].
Qed.

Lemma str_rotulo_1 : str "Instrução:" = str "Instrução" ++ [58%N].
Proof. vm_compute. reflexivity. Qed.

Lemma str_rotulo_2 : str "INSTRUÇÃO:" = str "INSTRUÇÃO" ++ [58%N].
Proof. vm_compute. reflexivity. Qed.

Lemma rotulo_com_texto texto :
  is_Some (_extrair_instrucao texto) <->
  exists x, contains (str "Instrução:" ++ [x]) texto \/
            contains (str "INSTRUÇÃO:" ++ [x]) texto.
Proof.
  rewrite str_rotulo_1, str_rotulo_2.
  unfold _extrair_instrucao, padrao_instrucao, rotulo_instrucao.
  generalize (str "Instrução") (str "INSTRUÇÃO"). intros L1 L2.
  transitivity (is_Some (search false
    (seq [Alt (word L1) (word L2); One (Lit 58%N); star Space; Group 1 (plus_lazy Dot);
          fim_instrucao]) texto)).
  { destruct (search false _ texto); split; intros [? ?]; eauto; discriminate. }
  rewrite (search_is_Some_prop _ _ _
    (fun a => exists x rest, a = L1 ++ 58%N :: x :: rest \/ a = L2 ++ 58%N :: x :: rest)).
  - split.
    + intros (a1 & a2 & -> & x & rest & [->| ->]); exists x; [left|right];
        exists a1, rest; rewrite <- !app_assoc; reflexivity.
    + intros (x & [(pre & post & ->)|(pre & post & ->)]);
        exists pre; eexists; (split; [reflexivity|]); exists x, post;
        [left|right]; rewrite <- !app_assoc; reflexivity.
  - intros bef aft. split.
    + intros [m M]. apply instrucao_aqui in M as (L & sp & post & HL & -> & _ & Hb & _).
      destruct sp as [|s sp]; cbn [app].
      * destruct (group m 1) as [|b body]; [congruence|].
        exists b, (body ++ post). destruct HL as [->| ->]; auto.
      * exists s, (sp ++ group m 1 ++ post). destruct HL as [->| ->]; auto.
    + intros (x & rest & [->| ->]); apply instrucao_aqui_Some; auto.
Qed.

(** X6. An instruction is found exactly when one of the two spellings of
    the label, with its colon, is followed by at least one character;
    the label in any other letter case is not a label. *)
Theorem instrucao_presente texto :
  is_Some (_extrair_instrucao texto) <->
  exists x, contains (str "Instrução:" ++ [x]) texto \/
            contains (str "INSTRUÇÃO:" ++ [x]) texto.
Proof. exact (rotulo_com_texto texto). Qed.

Lemma str_instrucao_1 : str "Instrução" = [73; 110; 115; 116; 114; 117; 231; 227; 111]%N.
Proof. vm_compute. reflexivity. Qed.

Lemma str_instrucao_2 : str "INSTRUÇÃO" = [73; 78; 83; 84; 82; 85; 199; 195; 79]%N.
Proof. vm_compute. reflexivity. Qed.

Lemma str_dois_pontos : str ":" = [58]%N.
Proof. vm_compute. reflexivity. Qed.

Lemma str_abre : str "(" = [40]%N.
Proof. vm_compute. reflexivity. Qed.

(** The first match of the instruction pattern is at the first label. *)
Lemma instrucao_no_rotulo antes rotulo resto :
  let L1 := [73; 110; 115; 116; 114; 117; 231; 227; 111]%N in
  let L2 := [73; 78; 83; 84; 82; 85; 199; 195; 79]%N in
  let padrao := seq [Alt (word L1) (word L2); One (Lit 58%N); star Space;
                     Group 1 (plus_lazy Dot); fim_instrucao] in
  rotulo = L1 \/ rotulo = L2 ->
  ~ contains (L1 ++ [58%N]) antes -> ~ contains (L2 ++ [58%N]) antes ->
  resto <> [] ->
  exists m, search false padrao (antes ++ rotulo ++ 58%N :: resto) = Some m /\
    match_at false padrao (rev antes ++ []) (rotulo ++ 58%N :: resto) = Some m.
Proof.
  intros L1 L2 padrao HL H1 H2 Hr.
  destruct resto as [|x rest]; [congruence|].
  destruct (instrucao_aqui_Some L1 L2 (rev antes ++ []) rotulo x rest HL) as [m M].
  exists m. split; [|exact M]. apply search_from_Some.
  exists antes, (rotulo ++ 58%N :: x :: rest). split; [reflexivity|]. split; [exact M|].
  intros b1 b2 Hb E.
  destruct (match_at false _ (rev b1 ++ []) (b2 ++ rotulo ++ 58%N :: x :: rest))
    as [m'|] eqn:M'; [|reflexivity].
  exfalso. apply instrucao_aqui in M' as (L & sp & post & HL' & E' & _).
  assert (forall w' v, rotulo = 73%N :: v -> L = 73%N :: w' -> 73%N ∉ w' ++ [58%N] ->
            contains (L ++ [58%N]) antes) as Hc.
  { intros w' v -> -> Hn. rewrite E.
    apply (inicio_antes 73%N (w' ++ [58%N]) v b1 b2 (58%N :: x :: rest)
             (sp ++ group m' 1 ++ post)); [exact Hn|exact Hb|].
    etransitivity; [exact E'|]. cbn [app]. rewrite <- !app_assoc. reflexivity. }
  assert (forall l : list N, 73%N ∈ l -> Forall (fun y => y <> 73%N) l -> False) as Hno.
  { intros l Hin F. rewrite Forall_forall in F. apply (F _ Hin). reflexivity. }
  destruct HL' as [->| ->].
  - apply H1. destruct HL as [->| ->]; eapply Hc; try reflexivity;
      intros Hin; apply (Hno _ Hin); repeat constructor; discriminate.
  - apply H2. destruct HL as [->| ->]; eapply Hc; try reflexivity;
      intros Hin; apply (Hno _ Hin); repeat constructor; discriminate.
Qed.

Lemma rotulo_igual (L L' : text) p q :
  let L1 := [73; 110; 115; 116; 114; 117; 231; 227; 111]%N in
  let L2 := [73; 78; 83; 84; 82; 85; 199; 195; 79]%N in
  L = L1 \/ L = L2 -> L' = L1 \/ L' = L2 -> L ++ p = L' ++ q -> p = q.
Proof.
  intros L1 L2 [->| ->] [->| ->] E; cbn [app] in E; try discriminate E;
    injection E; auto.
Qed.

Lemma instrucao_resto_do_texto antes rotulo resto :
  rotulo = str "Instrução" \/ rotulo = str "INSTRUÇÃO" ->
  ~ contains (str "Instrução:") antes -> ~ contains (str "INSTRUÇÃO:") antes ->
  resto <> [] -> ~ contains (nl :: str "(") resto ->
  _extrair_instrucao (antes ++ rotulo ++ str ":" ++ resto) = Some (strip resto).
Proof.
  rewrite str_rotulo_1, str_rotulo_2, str_instrucao_1, str_instrucao_2, str_dois_pontos,
    str_abre.
  intros HL H1 H2 Hr Hp.
  destruct (instrucao_no_rotulo antes rotulo resto HL H1 H2 Hr) as (m & S & M).
  unfold _extrair_instrucao, padrao_instrucao, rotulo_instrucao.
  rewrite str_instrucao_1, str_instrucao_2. cbn [app].
  match goal with
  | |- match ?s with Some _ => _ | None => _ end = _ =>
      replace s with (Some m) by (symmetry; exact S)
  end.
  f_equal.
  apply instrucao_aqui in M as (L & sp & post & HL' & E & Fs & _ & Hpost).
  apply (rotulo_igual _ _ _ _ HL HL') in E. injection E as E. rewrite E.
  rewrite strip_spaces_l by exact Fs.
  destruct Hpost as [(post' & ->)|[->| ->]].
  - exfalso. apply Hp. rewrite E. exists (sp ++ group m 1), post'.
    rewrite <- !app_assoc. reflexivity.
  - rewrite app_nil_r. reflexivity.
  - symmetry. apply strip_spaces_r. repeat constructor.
Qed.

(** X7. When no line that begins with an opening parenthesis follows the
    label, the instruction is the whole rest of the text, stripped: a
    parenthesis inside a line does not end it. *)
Theorem instrucao_ate_o_fim antes rotulo resto :
  rotulo = str "Instrução" \/ rotulo = str "INSTRUÇÃO" ->
  ~ contains (str "Instrução:") antes -> ~ contains (str "INSTRUÇÃO:") antes ->
  resto <> [] -> ~ contains (nl :: str "(") resto ->
  _extrair_instrucao (antes ++ rotulo ++ str ":" ++ resto) = Some (strip resto).
Proof. exact (instrucao_resto_do_texto antes rotulo resto). Qed.

Lemma instrucao_ate_o_fim_witness :
  _extrair_instrucao
    (str "Leia. " ++ str "Instrução" ++ str ":" ++ str " leia o texto (abaixo) e responda" ++ [nl])
  = Some (str "leia o texto (abaixo) e responda").
Proof.
  apply (instrucao_ate_o_fim (str "Leia. ") (str "Instrução")
           (str " leia o texto (abaixo) e responda" ++ [nl])).
  - left. reflexivity.
  - apply not_contains. vm_compute. reflexivity.
  - apply not_contains. vm_compute. reflexivity.
  - discriminate.
  - apply not_contains. vm_compute. reflexivity.
Defined.

(** A lazy repetition stops at the first length, from [lo] on, at which
    the rest of the pattern succeeds. *)
Lemma rep_lazy_min ic i gs k res : forall aft lo hi bef,
  rep_lazy ic i lo hi gs bef aft k = Some res ->
  exists w aft', aft = w ++ aft' /\ k (MState (rev w ++ bef) aft' gs) = Some res /\
    (lo <= length w)%nat /\
    forall w1 w2, w = w1 ++ w2 -> w2 <> [] -> (lo <= length w1)%nat ->
      k (MState (rev w1 ++ bef) (w2 ++ aft') gs) = None.
Proof.
  induction aft as [|x aft IH]; intros lo hi bef H; cbn [rep_lazy] in H.
  - destruct lo; [|discriminate].
    destruct (k (MState bef [] gs)) eqn:K; [|discriminate]. injection H as ->.
    exists [], []. repeat split; auto.
    intros w1 w2 E. symmetry in E. apply app_eq_nil in E as [_ ->]. congruence.
  - assert (Hmore :
      (if item_match ic i x && more_allowed hi
       then rep_lazy ic i (Nat.pred lo) (one_less hi) gs (x :: bef) aft k
       else None) = Some res ->
      exists w', exists aft', aft = w' ++ aft' /\
        k (MState (rev (x :: w') ++ bef) aft' gs) = Some res /\
        (lo <= length (x :: w'))%nat /\
        forall w1 w2, w' = w1 ++ w2 -> w2 <> [] -> (Nat.pred lo <= length w1)%nat ->
          k (MState (rev (x :: w1) ++ bef) (w2 ++ aft') gs) = None).
    { intros H'. destruct (item_match ic i x && more_allowed hi); [|discriminate].
      apply IH in H' as (w & aft' & -> & K & L & Hmin).
      exists w, aft'. cbn [rev]. rewrite <- app_assoc. repeat split; auto.
      - simpl. lia.
      - intros w1 w2 E Hw2 L1. rewrite <- app_assoc. apply Hmin; assumption. }
    destruct lo as [|lo].
    + destruct (k (MState bef (x :: aft) gs)) eqn:K.
      * injection H as ->. exists [], (x :: aft). repeat split; auto.
        intros w1 w2 E. symmetry in E. apply app_eq_nil in E as [_ ->]. congruence.
      * apply Hmore in H as (w' & aft' & -> & K' & L & Hmin).
        exists (x :: w'), aft'. repeat split; auto.
        intros w1 w2 E Hw2 _. destruct w1 as [|y w1]; cbn [app] in E.
        -- subst w2. exact K.
        -- injection E as <- E. apply Hmin; [exact E|exact Hw2|simpl; lia].
    + apply Hmore in H as (w' & aft' & -> & K' & L & Hmin).
      exists (x :: w'), aft'. repeat split; auto.
      intros w1 w2 E Hw2 L1. destruct w1 as [|y w1]; [simpl in L1; lia|].
      cbn [app] in E. injection E as <- E. apply Hmin; [exact E|exact Hw2|].
      simpl in L1. simpl. lia.
Qed.

Lemma exec_Seq_sound ic r1 r2 st k res :
  exec ic (Seq r1 r2) st k = Some res ->
  exists mid, reach ic r1 st mid /\ exec ic r2 mid k = Some res.
Proof. cbn [exec]. intros H. apply exec_sound in H. exact H. Qed.

Lemma fim_instrucao_alternativa bef post gs :
  exec false fim_instrucao (MState bef (nl :: 40%N :: post) gs) Some =
  Some (MState bef (nl :: 40%N :: post) gs).
Proof. reflexivity. Qed.

Lemma instrucao_antes_da_linha antes rotulo corpo depois :
  rotulo = str "Instrução" \/ rotulo = str "INSTRUÇÃO" ->
  ~ contains (str "Instrução:") antes -> ~ contains (str "INSTRUÇÃO:") antes ->
  strip corpo <> [] -> ~ contains (nl :: str "(") corpo ->
  _extrair_instrucao (antes ++ rotulo ++ str ":" ++ corpo ++ nl :: str "(" ++ depois)
  = Some (strip corpo).
Proof.
  rewrite str_rotulo_1, str_rotulo_2, str_instrucao_1, str_instrucao_2, str_dois_pontos,
    str_abre.
  intros HL H1 H2 Hc Hp.
  assert (corpo ++ nl :: [40%N] ++ depois <> []) as Hr by (destruct corpo; discriminate).
  destruct (instrucao_no_rotulo antes rotulo _ HL H1 H2 Hr) as (m & S & M).
  unfold _extrair_instrucao, padrao_instrucao, rotulo_instrucao.
  rewrite str_instrucao_1, str_instrucao_2. cbn [app].
  match goal with
  | |- match ?s with Some _ => _ | None => _ end = _ =>
      replace s with (Some m) by (symmetry; exact S)
  end.
  f_equal. clear S.
  unfold match_at in M.
  match type of M with
  | match ?e with Some _ => _ | None => _ end = _ => destruct e as [fin|] eqn:X
  end; [|discriminate].
  injection M as <-. unfold group. cbn [m_final].
  unfold star, plus_lazy in X. cbn [seq] in X.
  apply exec_Seq_sound in X as (s1 & R1 & X).
  apply exec_Seq_sound in X as (s2 & R2 & X).
  apply exec_Seq_sound in X as (s3 & R3 & X).
  cbn [exec] in X.
  apply rep_lazy_min in X as (w & aft' & A4 & K & Lw & Hmin).
  pose proof K as K'. apply exec_sound in K' as (fin' & RF & [= <-]).
  unfold fim_instrucao in RF. cbn [reach after before groups] in RF.
  destruct RF as [(st1 & RF) ->]. cbn [groups lookup_group Nat.eqb].
  rewrite (consumed_rev s3 _ w) by reflexivity.
  assert (exists L, (L = [73; 110; 115; 116; 114; 117; 231; 227; 111]%N \/
                     L = [73; 78; 83; 84; 82; 85; 199; 195; 79]%N) /\
            rotulo ++ 58%N :: corpo ++ nl :: 40%N :: depois = L ++ after s1)
    as (L & HL' & A1).
  { destruct R1 as [R1|R1]; apply reach_word in R1 as [S1 ->]; cbn [after] in S1;
      apply starts_exact in S1 as [p E1]; rewrite E1;
      rewrite advance_app; cbn [after]; eauto. }
  apply (rotulo_igual _ _ _ _ HL HL') in A1.
  cbn [reach] in R2, R3.
  destruct R2 as (x & A2 & M2 & _). destruct R3 as (sp & A3 & _ & _ & F3 & _).
  rewrite A2 in A1. injection A1 as _ A1. rewrite A3, A4 in A1. clear A2 A3 A4.
  assert (sp ++ w = corpo) as E.
  { rewrite app_assoc in A1. apply app_eq_inv in A1 as [(k0 & E1 & E2)|(k0 & E1 & E2)].
    - destruct k0 as [|z k0]; [rewrite app_nil_r in E1; auto|]. exfalso.
      destruct RF as [(t1 & (a & X1 & Ma & _) & (b & Y1 & Mb & _))|[RF _]];
        cbn [after item_match] in *.
      + apply N.eqb_eq in Ma, Mb. subst a b. rewrite E2 in X1.
        cbn [app] in X1. injection X1 as -> X1. rewrite Y1 in X1.
        destruct k0 as [|z' k0]; cbn [app] in X1; [discriminate X1|].
        injection X1 as -> _. apply Hp. rewrite E1.
        exists (sp ++ w), k0. reflexivity.
      + rewrite E2 in RF. destruct RF as [RF|RF]; [discriminate RF|].
        destruct k0; discriminate RF.
    - destruct k0 as [|z k0]; [rewrite app_nil_r in E1; auto|]. exfalso.
      apply app_eq_inv in E1 as [(k1 & S1 & S2)|(k1 & S1 & S2)].
      + apply Hc. unfold strip.
        assert (lstrip corpo = []) as ->; [|reflexivity].
        apply lstrip_nil. rewrite S1 in F3. apply Forall_app in F3 as [F3 _]. exact F3.
      + destruct k1 as [|y k1].
        * apply Hc. unfold strip.
          assert (lstrip corpo = []) as ->; [|reflexivity].
          apply lstrip_nil. rewrite S1, app_nil_r. exact F3.
        * specialize (Hmin (y :: k1) (z :: k0) S2 ltac:(discriminate) ltac:(simpl; lia)).
          cbn [before after groups] in Hmin. rewrite <- E2 in Hmin.
          rewrite fim_instrucao_alternativa in Hmin.
          discriminate Hmin. }
  rewrite <- E. symmetry. apply strip_spaces_l. exact F3.
Qed.

(** X8. When a line that begins with an opening parenthesis follows, the
    instruction is the text between the label and the first such line,
    stripped. *)
Theorem instrucao_ate_a_alternativa antes rotulo corpo depois :
  rotulo = str "Instrução" \/ rotulo = str "INSTRUÇÃO" ->
  ~ contains (str "Instrução:") antes -> ~ contains (str "INSTRUÇÃO:") antes ->
  strip corpo <> [] -> ~ contains (nl :: str "(") corpo ->
  _extrair_instrucao (antes ++ rotulo ++ str ":" ++ corpo ++ nl :: str "(" ++ depois)
  = Some (strip corpo).
Proof. exact (instrucao_antes_da_linha antes rotulo corpo depois). Qed.

Lemma instrucao_ate_a_alternativa_witness :
  _extrair_instrucao
    ([] ++ str "INSTRUÇÃO" ++ str ":" ++ str " leia (com calma) o texto " ++
     nl :: str "(" ++ str "A) um" ++ nl :: str "(B) dois")
  = Some (str "leia (com calma) o texto").
Proof.
  apply (instrucao_ate_a_alternativa [] (str "INSTRUÇÃO") (str " leia (com calma) o texto ")
           (str "A) um" ++ nl :: str "(B) dois")).
  - right. reflexivity.
  - apply not_contains. vm_compute. reflexivity.
  - apply not_contains. vm_compute. reflexivity.
  - vm_compute. discriminate.
  - apply not_contains. vm_compute. reflexivity.
Defined.

(** ** Subjects *)

Lemma lower_cases (x : N) :
  lower x = x \/
  (lower x = (x + 32)%N /\
   (in_range 65%N 90%N x = true \/ in_range 192%N 214%N x = true \/
    in_range 216%N 222%N x = true)).
Proof.
  unfold lower. destruct (in_range 65%N 90%N x) eqn:E1; [auto|].
  destruct (in_range 192%N 214%N x) eqn:E2; [auto 6|].
  destruct (in_range 216%N 222%N x) eqn:E3; [auto 6|]. auto.
Qed.

Lemma in_range_shift (lo hi lo' hi' x : N) :
  in_range lo hi x = true -> (lo' <= lo + 32)%N -> (hi + 32 <= hi')%N ->
  in_range lo' hi' (x + 32)%N = true.
Proof.
  unfold in_range. intros Hx H1 H2.
  apply andb_true_iff in Hx as [A B]. apply N.leb_le in A, B.
  apply andb_true_iff. split; apply N.leb_le; lia.
Qed.

Lemma in_range_weaken (lo hi lo' hi' x : N) :
  in_range lo hi x = true -> (lo' <= lo)%N -> (hi <= hi')%N ->
  in_range lo' hi' x = true.
Proof.
  unfold in_range. intros Hx H1 H2.
  apply andb_true_iff in Hx as [A B]. apply N.leb_le in A, B.
  apply andb_true_iff. split; apply N.leb_le; lia.
Qed.

Lemma is_word_lower (x : N) : is_word (lower x) = is_word x.
Proof.
  destruct (lower_cases x) as [->|[-> H]]; [reflexivity|].
  unfold is_word. destruct H as [H|[H|H]].
  - rewrite H, (in_range_shift 65 90 97 122 x H) by lia. rewrite !orb_true_r. reflexivity.
  - rewrite H, (in_range_shift 192 214 216 246 x H) by lia. rewrite !orb_true_r. reflexivity.
  - rewrite (in_range_shift 216 222 248 255 x H) by lia.
    rewrite (in_range_weaken 216 222 216 246 x H) by lia.
    rewrite !orb_true_r. reflexivity.
Qed.

Lemma ci_eqb_word (x c : N) : ci_eqb x c = true -> is_word x = is_word c.
Proof.
  unfold ci_eqb. intros H. apply N.eqb_eq in H.
  rewrite <- (is_word_lower x), <- (is_word_lower c), H. reflexivity.
Qed.

Lemma search_is_Some_ctx ic r s (P : text -> text -> Prop) :
  (forall bef aft, is_Some (match_at ic r bef aft) <-> P bef aft) ->
  is_Some (search ic r s) <-> exists a1 a2, s = a1 ++ a2 /\ P (rev a1) a2.
Proof.
  intros Hp. unfold search. split.
  - intros [m Hm]. apply search_from_Some in Hm as (a1 & a2 & E & M & _).
    rewrite app_nil_r in M. exists a1, a2. split; [exact E|]. apply Hp. eauto.
  - intros (a1 & a2 & E & P2).
    destruct (search_from ic r [] s) eqn:S; [eauto|].
    rewrite search_from_None in S. specialize (S a1 a2 E). rewrite app_nil_r in S.
    apply Hp in P2 as [m Hm]. congruence.
Qed.

(** A keyword that begins and ends with a word character. *)
Lemma materia_aqui c kw c' bef aft :
  is_word c = true -> is_word c' = true ->
  is_Some (match_at true (padrao_materia (c :: kw ++ [c'])) bef aft) <->
  exists u post, aft = u ++ post /\ same_ci u (c :: kw ++ [c']) /\
    match bef with x :: _ => is_word x = false | [] => True end /\
    match post with x :: _ => is_word x = false | [] => True end.
Proof.
  intros Hc Hc'. rewrite match_at_reach. unfold padrao_materia. cbn [reach].
  assert (forall u, same_ci u (c :: kw ++ [c']) ->
            exists x u' y, u = x :: u' /\ rev u = y :: rev (removelast u) /\
              is_word x = true /\ is_word y = true) as Hu.
  { intros u F. pose proof F as F0. unfold same_ci in F. inversion F as [|x c0 u' w' Hx F']; subst.
    apply Forall2_app_inv_r in F' as (u1 & u2 & F1 & F2 & ->).
    inversion F2 as [|y c1 u3 w3 Hy F3]; subst. inversion F3; subst.
    exists x, (u1 ++ [y]), y. split; [reflexivity|].
    change (x :: u1 ++ [y]) with ((x :: u1) ++ [y]).
    rewrite removelast_last, rev_app_distr. cbn [rev app].
    repeat split; [rewrite (ci_eqb_word _ _ Hx); exact Hc|rewrite (ci_eqb_word _ _ Hy); exact Hc']. }
  split.
  - intros (st' & mid & [X1 ->] & mid2 & Rw & [X2 ->]).
    apply reach_word in Rw as [S ->]. cbn [after] in S.
    apply starts_ci in S as (u & post & -> & F).
    rewrite <- (Forall2_length _ _ _ F), advance_app in X2.
    destruct (Hu u F) as (x & u' & y & -> & Er & Wx & Wy).
    unfold word_before, word_after in X1, X2. cbn [after before app] in X1, X2.
    rewrite Er in X2. cbn [app] in X2. rewrite Wx in X1. rewrite Wy in X2.
    exists (x :: u'), post. repeat split; auto.
    + destruct bef as [|b bef]; [exact I|]. destruct (is_word b); [discriminate X1|reflexivity].
    + destruct post as [|p post]; [exact I|]. destruct (is_word p); [discriminate X2|reflexivity].
  - intros (u & post & -> & F & Hb & Hp).
    destruct (Hu u F) as (x & u' & y & -> & Er & Wx & Wy).
    exists (MState (rev (x :: u') ++ bef) post []), (MState bef ((x :: u') ++ post) []).
    split.
    { split; [|reflexivity]. unfold word_before, word_after. cbn [after before app].
      rewrite Wx. destruct bef as [|b bef]; [reflexivity|]. rewrite Hb. reflexivity. }
    exists (MState (rev (x :: u') ++ bef) post []). split.
    { apply reach_word. cbn [after]. split; [apply starts_ci; eauto|].
      rewrite <- (Forall2_length _ _ _ F). apply eq_sym, advance_app. }
    split; [|reflexivity]. unfold word_before, word_after. cbn [after before].
    rewrite Er. cbn [app]. rewrite Wy.
    destruct post as [|p post]; [reflexivity|]. rewrite Hp. reflexivity.
Qed.

Lemma materia_presente c kw c' s :
  is_word c = true -> is_word c' = true ->
  is_Some (search true (padrao_materia (c :: kw ++ [c'])) s) <->
  palavra_inteira (c :: kw ++ [c']) s.
Proof.
  intros Hc Hc'.
  rewrite (search_is_Some_ctx _ _ _ _ (fun bef aft => materia_aqui c kw c' bef aft Hc Hc')).
  unfold palavra_inteira. split.
  - intros (a1 & a2 & -> & u & post & -> & F & Hb & Hp). exists a1, u, post. auto.
  - intros (pre & u & post & -> & F & Hb & Hp). exists pre, (u ++ post).
    split; [reflexivity|]. exists u, post. auto.
Qed.

Ltac palavra_ok :=
  match goal with
  | |- exists c mid c', ?kw = _ /\ _ =>
      exists (hd 0%N kw), (removelast (tl kw)), (List.last kw 0%N);
      vm_compute; auto
  end.

Lemma palavra_inteira_search kw s :
  (exists c mid c', kw = c :: mid ++ [c'] /\ is_word c = true /\ is_word c' = true) ->
  is_Some (search true (padrao_materia kw) s) <-> palavra_inteira kw s.
Proof. intros (c & mid & c' & -> & Hc & Hc'). apply materia_presente; assumption. Qed.

Lemma materias_bem_formadas :
  Forall (fun e : text * text =>
            exists c mid c', e.1 = c :: mid ++ [c'] /\ is_word c = true /\ is_word c' = true)
    materias.
Proof. unfold materias. repeat (constructor; [cbn [fst]; palavra_ok|]). constructor. Qed.

Lemma primeira_materia_Some tabela texto antes kw label depois :
  Forall (fun e : text * text =>
            exists c mid c', e.1 = c :: mid ++ [c'] /\ is_word c = true /\ is_word c' = true)
    tabela ->
  tabela = antes ++ (kw, label) :: depois ->
  palavra_inteira kw texto ->
  (forall e, e ∈ antes -> ~ palavra_inteira e.1 texto) ->
  primeira_materia tabela texto = Some label.
Proof.
  intros Hok -> Hkw. induction antes as [|[kw' l'] antes IH]; intros Hn; cbn [app primeira_materia].
  - apply Forall_cons in Hok as [Hk _]. cbn [fst] in Hk.
    apply (palavra_inteira_search _ texto Hk) in Hkw as [m ->]. reflexivity.
  - cbn [app] in Hok. apply Forall_cons in Hok as [Hk Hok]. cbn [fst] in Hk.
    destruct (search true (padrao_materia kw') texto) as [m|] eqn:S.
    + exfalso. apply (Hn (kw', l')); [left|]. cbn [fst].
      apply (palavra_inteira_search _ texto Hk). rewrite S. eauto.
    + apply IH; [exact Hok|]. intros e He. apply Hn. right. exact He.
Qed.

Lemma primeira_materia_None tabela texto :
  Forall (fun e : text * text =>
            exists c mid c', e.1 = c :: mid ++ [c'] /\ is_word c = true /\ is_word c' = true)
    tabela ->
  (forall e, e ∈ tabela -> ~ palavra_inteira e.1 texto) ->
  primeira_materia tabela texto = None.
Proof.
  induction 1 as [|[kw l] tabela Hk Hok IH]; intros Hn; cbn [primeira_materia]; [reflexivity|].
  cbn [fst] in Hk.
  destruct (search true (padrao_materia kw) texto) as [m|] eqn:S.
  - exfalso. apply (Hn (kw, l)); [left|]. cbn [fst].
    apply (palavra_inteira_search _ texto Hk). rewrite S. eauto.
  - apply IH. intros e He. apply Hn. right. exact He.
Qed.

(** X9. The subject is the label of the first keyword of the table, in
    table order, that occurs in the text as a whole word in some letter
    case; where the keywords stand in the text does not matter.  Both
    subject functions agree on it. *)
Theorem materia_primeira_da_tabela self contexto antes kw label depois :
  latin1 contexto ->
  materias = antes ++ (kw, label) :: depois ->
  palavra_inteira kw contexto ->
  (forall e, e ∈ antes -> ~ palavra_inteira e.1 contexto) ->
  _extrair_materia_contexto self contexto = Some label /\
  _detectar_materia (materia_atual self) contexto = Some label.
Proof.
  intros _ E Hkw Hn. unfold _extrair_materia_contexto, _detectar_materia.
  rewrite (primeira_materia_Some materias contexto antes kw label depois
             materias_bem_formadas E Hkw Hn).
  split; reflexivity.
Qed.

Lemma materia_primeira_da_tabela_witness :
  _extrair_materia_contexto (Extractor None ∅) (str "Química e física: prova") =
    Some (str "Física") /\
  _detectar_materia (materia_atual (Extractor None ∅)) (str "Química e física: prova") =
    Some (str "Física").
Proof.
  apply (materia_primeira_da_tabela (Extractor None ∅) (str "Química e física: prova")
           (take 3 materias) (str "FÍSICA") (str "Física") (drop 4 materias)).
  - unfold latin1. vm_compute. repeat constructor.
  - reflexivity.
  - apply palavra_inteira_search; [palavra_ok|]. vm_compute. eauto.
  - intros e He. cbn [take materias] in He.
    rewrite !elem_of_cons, elem_of_nil in He.
    destruct He as [->|[->|[->|[]]]]; cbn [fst]; intros H;
      (apply palavra_inteira_search in H; [|palavra_ok]);
      vm_compute in H; destruct H as [? H]; discriminate H.
Defined.

(** X10. When no keyword of the table occurs as a whole word, the subject
    is the one known so far; a keyword inside a longer word does not
    count. *)
Theorem materia_de_reserva self contexto :
  latin1 contexto ->
  (forall e, e ∈ materias -> ~ palavra_inteira e.1 contexto) ->
  _extrair_materia_contexto self contexto = materia_atual self /\
  _detectar_materia (materia_atual self) contexto = materia_atual self.
Proof.
  intros _ Hn. unfold _extrair_materia_contexto, _detectar_materia.
  rewrite (primeira_materia_None materias contexto materias_bem_formadas Hn).
  split; reflexivity.
Qed.

Lemma materia_de_reserva_witness :
  _extrair_materia_contexto (Extractor (Some (str "História")) ∅)
    (str "A metafísica e a geografia2") = Some (str "História") /\
  _detectar_materia (materia_atual (Extractor (Some (str "História")) ∅))
    (str "A metafísica e a geografia2") = Some (str "História").
Proof.
  apply (materia_de_reserva (Extractor (Some (str "História")) ∅)
           (str "A metafísica e a geografia2")).
  - unfold latin1. vm_compute. repeat constructor.
  - intros e He. unfold materias in He.
    rewrite !elem_of_cons, elem_of_nil in He.
    destruct He as [->|[->|[->|[->|[->|[->|[->|[->|[]]]]]]]]]; cbn [fst]; intros H;
      (apply palavra_inteira_search in H; [|palavra_ok]);
      vm_compute in H; destruct H as [? H]; discriminate H.
Defined.

(** ** Options *)

Lemma split_ws_palavras s : forall cur,
  Forall (fun x => is_space x = false) cur ->
  Forall (fun w => w <> [] /\ Forall (fun x => is_space x = false) w) (split_ws cur s).
Proof.
  induction s as [|x s IH]; intros cur Hc; cbn [split_ws].
  - destruct cur as [|c cur]; [constructor|]. constructor; [|constructor].
    split; [|apply Forall_rev; exact Hc].
    intros E. apply (f_equal (@length char)) in E. rewrite length_rev in E. discriminate E.
  - destruct (is_space x) eqn:Ex.
    + destruct cur as [|c cur]; [apply IH; constructor|].
      constructor; [|apply IH; constructor].
      split; [|apply Forall_rev; exact Hc].
      intros E. apply (f_equal (@length char)) in E. rewrite length_rev in E. discriminate E.
    + apply IH. constructor; assumption.
Qed.

Lemma alternativa_aqui bef aft m :
  match_at false padrao_alternativa bef aft = Some m ->
  exists x, group m 1 = [x] /\ in_range 65%N 69%N x = true.
Proof.
  intros H. apply match_at_Some in H as [_ R].
  unfold padrao_alternativa, star, plus_lazy in R. cbn [seq reach] in R.
  destruct R as (s1 & (a & A1 & M1 & B1 & G1)
    & s2 & (s2' & (x & A2 & M2 & B2 & G2) & ->)
    & s3 & (b & A3 & M3 & B3 & G3)
    & s4 & (sp & A4 & B4 & G4 & _)
    & s5 & (s5' & (body & A5 & B5 & G5 & _) & ->)
    & _ & E).
  cbn [after before groups item_match] in *.
  exists x. split; [|exact M2].
  unfold group. rewrite E. cbn [groups lookup_group Nat.eqb].
  rewrite G5, G4, G3. cbn [lookup_group Nat.eqb].
  apply (consumed_rev s1 s2' [x]). exact B2.
Qed.

Lemma alternativas_de_Forall (P : alternativa -> Prop) ms :
  (forall m, m ∈ ms ->
     join_sp (split_ws [] (strip (group m 2))) <> [] ->
     P (Alternativa (group m 1) (join_sp (split_ws [] (strip (group m 2)))))) ->
  Forall P (alternativas_de ms).
Proof.
  induction ms as [|m ms IH]; intros H; cbn [alternativas_de]; [constructor|].
  assert (Forall P (alternativas_de ms)) as Hr.
  { apply IH. intros m' Hin. apply H. right. exact Hin. }
  destruct (join_sp (split_ws [] (strip (group m 2)))) as [|c conteudo] eqn:E; [exact Hr|].
  constructor; [|exact Hr]. rewrite <- E. apply H; [left|]. rewrite E. discriminate.
Qed.

(** X11. Every option has one of the letters A to E, and its text is a
    sequence of one or more words, none empty and none with white space
    in it, joined by single spaces. *)
Theorem alternativas_bem_formadas texto :
  Forall (fun a =>
            (exists x, letra a = [x] /\ in_range 65%N 69%N x = true) /\
            exists palavras, palavras <> [] /\ texto_alternativa a = join_sp palavras /\
              Forall (fun w => w <> [] /\ Forall (fun x => is_space x = false) w) palavras)
    (_extrair_alternativas texto).
Proof.
  apply alternativas_de_Forall. intros m Hin Hne. cbn [letra texto_alternativa]. split.
  - apply finditer_elem in Hin as (a1 & a2 & _ & M). apply (alternativa_aqui _ _ _ M).
  - exists (split_ws [] (strip (group m 2))). split; [|split; [reflexivity|]].
    + intros E. rewrite E in Hne. apply Hne. reflexivity.
    + apply split_ws_palavras. constructor.
Qed.

(** ** Questions and line breaks *)

Lemma finditer_nil ic r s :
  (forall m, m ∈ finditer ic r s -> False) -> finditer ic r s = [].
Proof. destruct (finditer ic r s) as [|m l]; [reflexivity|]. intros H. destruct (H m). left. Qed.

(** X12. A question begins at a line break: a text without one has no
    question, whatever numbers and periods it holds. *)
Theorem sem_quebra_de_linha self texto :
  nl ∉ texto -> _processar_texto_completo self texto = [].
Proof.
  intros H. unfold _processar_texto_completo, segmentar.
  rewrite finditer_nil; [reflexivity|].
  intros m Hin. apply finditer_elem in Hin as (a1 & a2 & -> & M).
  apply questao_aqui in M as (sp & ds & sp2 & sp3 & post & -> & _).
  apply H. apply elem_of_app. right. left.
Qed.

Lemma sem_quebra_de_linha_witness :
  _processar_texto_completo (Extractor None ∅)
    (str "Figure 12. see below 1. Alpha text (A) x (B) y") = [].
Proof.
  apply sem_quebra_de_linha. intros H. apply list_elem_of_In in H.
  vm_compute in H. repeat destruct H as [H|H]; try discriminate H; exact H.
Defined.

Lemma inicio_questao_reach bef aft gs :
  inicio_numerado aft -> exists st', reach false inicio_questao (MState bef aft gs) st'.
Proof.
  intros (sp & ds & sp2 & sp3 & r & -> & Fs & Fd & [L1 L3] & F2 & F3 & Hne).
  unfold inicio_questao, star, plus. cbn [seq reach].
  eexists (MState _ r gs).
  exists (MState (nl :: bef) (sp ++ ds ++ sp2 ++ 46%N :: sp3 ++ r) gs). split.
  { exists nl. cbn [after before groups item_match]. auto. }
  exists (MState (rev sp ++ nl :: bef) (ds ++ sp2 ++ 46%N :: sp3 ++ r) gs). split.
  { exists sp. cbn [after before groups within]. repeat split; auto. lia. }
  exists (MState (rev ds ++ rev sp ++ nl :: bef) (sp2 ++ 46%N :: sp3 ++ r) gs). split.
  { exists ds. cbn [after before groups within]. repeat split; auto. }
  exists (MState (rev sp2 ++ rev ds ++ rev sp ++ nl :: bef) (46%N :: sp3 ++ r) gs). split.
  { exists sp2. cbn [after before groups within]. repeat split; auto. lia. }
  exists (MState (46%N :: rev sp2 ++ rev ds ++ rev sp ++ nl :: bef) (sp3 ++ r) gs). split.
  { exists 46%N. cbn [after before groups item_match]. auto. }
  exists sp3. cbn [after before groups within]. repeat split; auto.
  destruct sp3; [congruence|simpl; lia].
Qed.

Lemma corpo_minimo texto m w1 w2 :
  m ∈ finditer false padrao_questao texto ->
  group m 2 = w1 ++ w2 -> w1 <> [] -> w2 <> [] ->
  ~ inicio_numerado (w2 ++ after (m_final m)).
Proof.
  intros Hin E Hw1 Hw2 Hnum.
  apply finditer_elem in Hin as (a1 & a2 & _ & M).
  unfold match_at in M.
  match type of M with
  | match ?e with Some _ => _ | None => _ end = _ => destruct e as [fin|] eqn:X
  end; [|discriminate].
  injection M as <-. cbn [m_final] in *. unfold group in E. cbn [m_final] in E.
  unfold padrao_questao, star, plus, plus_lazy in X. cbn [seq] in X.
  apply exec_Seq_sound in X as (s1 & _ & X).
  apply exec_Seq_sound in X as (s2 & _ & X).
  apply exec_Seq_sound in X as (s3 & _ & X).
  apply exec_Seq_sound in X as (s4 & _ & X).
  apply exec_Seq_sound in X as (s5 & _ & X).
  apply exec_Seq_sound in X as (s6 & _ & X).
  remember (Ahead (Alt inicio_questao EosZ)) as la eqn:Ela.
  cbn [exec] in X.
  apply rep_lazy_min in X as (w & aft' & A & K & Lw & Hmin).
  pose proof K as K'. apply exec_sound in K' as (fin' & RF & [= <-]).
  rewrite Ela in RF. cbn [reach] in RF. destruct RF as [_ ->].
  cbn [groups lookup_group Nat.eqb after] in *.
  rewrite (consumed_rev s6 _ w) in E by reflexivity. subst w.
  specialize (Hmin w1 w2 eq_refl Hw2).
  assert (1 <= length w1)%nat as L1 by (destruct w1; [congruence|simpl; lia]).
  specialize (Hmin L1). cbn [before after groups] in Hmin.
  match type of Hmin with
  | ?e = None => assert (is_Some e) as [r Hr]; [|rewrite Hr in Hmin; discriminate Hmin]
  end.
  destruct (inicio_questao_reach (rev w1 ++ before s6) (w2 ++ aft')
              ((2%nat, consumed s6 (MState (rev w1 ++ before s6) (w2 ++ aft') (groups s6)))
                 :: groups s6) Hnum) as (st' & R).
  rewrite Ela.
  apply (exec_complete false (Ahead (Alt inicio_questao EosZ)) _
           (MState (rev w1 ++ before s6) (w2 ++ aft')
              ((2%nat, consumed s6 (MState (rev w1 ++ before s6) (w2 ++ aft') (groups s6)))
                 :: groups s6))); [|eauto].
  cbn [reach]. split; [|reflexivity]. exists st'. left. exact R.
Qed.

(** X13. The body of a question match stops at the first numbered line:
    inside the body, after its first character, no numbered line
    begins. *)
Theorem corpo_ate_a_proxima_questao texto m w1 w2 :
  m ∈ finditer false padrao_questao texto ->
  group m 2 = w1 ++ w2 -> w1 <> [] -> w2 <> [] ->
  ~ inicio_numerado (w2 ++ after (m_final m)).
Proof. exact (corpo_minimo texto m w1 w2). Qed.

Lemma corpo_ate_a_proxima_questao_witness :
  ~ inicio_numerado (str "b c" ++ nl :: str "2. d").
Proof.
  apply (corpo_ate_a_proxima_questao (nl :: str "1. a b c" ++ nl :: str "2. d")
           (Match 0 (MState (rev (nl :: str "1. a b c")) (nl :: str "2. d")
                       [(2%nat, str "a b c"); (1%nat, str "1")]))
           (str "a ") (str "b c")).
  - vm_compute. left.
  - reflexivity.
  - discriminate.
  - discriminate.
Defined.

(** ** Formulas *)

Lemma str_frac_abre : str "\frac{" = 92%N :: str "frac" ++ [123%N].
Proof. vm_compute. reflexivity. Qed.

Lemma str_sqrt_abre : str "\sqrt{" = 92%N :: str "sqrt" ++ [123%N].
Proof. vm_compute. reflexivity. Qed.

Lemma str_integral : str "∫" = [8747%N].
Proof. vm_compute. reflexivity. Qed.

Lemma simbolo_integral : 8747%N ∈ str "∫∑∏√±×÷≤≥≠∞".
Proof. apply list_elem_of_In. vm_compute. auto. Qed.

(** A text in which a formula pattern matches holds a sign of a
    calculation. *)
Lemma formula_aqui p bef aft m :
  p ∈ padroes_formula -> match_at false p bef aft = Some m ->
  tem_sinal_de_calculo aft.
Proof.
  unfold padroes_formula, tem_sinal_de_calculo. rewrite str_circunflexo.
  rewrite !elem_of_cons, elem_of_nil.
  intros [->|[->|[->|[->|[]]]]] M; apply match_at_Some in M as [_ R];
    unfold plus_lazy in R; cbn [seq reach] in R.
  - destruct R as (s1 & [_ ->] & s2 & (x & A1 & _) & s3 & (y & A2 & My & _) & _).
    cbn [after item_match] in *. apply N.eqb_eq in My. subst y.
    right. right. right. exists [x], (after s3). rewrite A1, A2. reflexivity.
  - destruct R as (s1 & R & _). apply reach_word in R as [S _]. cbn [after] in S.
    apply starts_exact in S as [post ->]. rewrite str_frac_abre.
    right. left. exists [92%N], (123%N :: post). cbn [app]. rewrite <- app_assoc. reflexivity.
  - destruct R as (s1 & R & _). apply reach_word in R as [S _]. cbn [after] in S.
    apply starts_exact in S as [post ->]. rewrite str_sqrt_abre.
    right. right. left. exists [92%N], (123%N :: post). cbn [app]. rewrite <- app_assoc.
    reflexivity.
  - destruct R as (s1 & R & _). apply reach_word in R as [S _]. cbn [after] in S.
    apply starts_exact in S as [post ->]. rewrite str_integral.
    left. exists 8747%N. split; [exact simbolo_integral|left].
Qed.

Lemma tem_sinal_de_calculo_app a1 a2 :
  tem_sinal_de_calculo a2 -> tem_sinal_de_calculo (a1 ++ a2).
Proof.
  unfold tem_sinal_de_calculo.
  intros [(c & Hc & Hin)|[(p & q & ->)|[(p & q & ->)|(p & q & ->)]]].
  - left. exists c. split; [exact Hc|]. apply elem_of_app. right. exact Hin.
  - right. left. exists (a1 ++ p), q. rewrite <- app_assoc. reflexivity.
  - right. right. left. exists (a1 ++ p), q. rewrite <- app_assoc. reflexivity.
  - right. right. right. exists (a1 ++ p), q. rewrite <- app_assoc. reflexivity.
Qed.

(** X14. Every formula is a piece of the text, and a text with a formula
    holds a sign of a calculation: its question is a true-or-false
    question or a calculation, never a multiple choice or a text
    interpretation. *)
Theorem formula_implica_calculo texto f :
  f ∈ _extrair_formulas texto ->
  contains f texto /\
  (_classificar_tipo_questao texto = verdadeiro_falso \/
   _classificar_tipo_questao texto = calculo).
Proof.
  unfold _extrair_formulas. rewrite elem_of_list_to_set.
  intros H. apply list_elem_of_In, in_concat in H as (l & Hl & Hf).
  apply in_map_iff in Hl as (p & <- & Hp). unfold findall in Hf.
  apply in_map_iff in Hf as (m & <- & Hm).
  apply list_elem_of_In in Hp. apply list_elem_of_In, finditer_elem in Hm as (a1 & a2 & -> & M).
  split.
  - apply whole_spec in M as [E _]. exists a1, (after (m_final m)).
    rewrite E at 1. reflexivity.
  - pose proof (tem_sinal_de_calculo_app a1 a2 (formula_aqui p _ _ m Hp M)) as Hs.
    apply calculo_presente in Hs as [mc Hc].
    unfold _classificar_tipo_questao.
    destruct (search false padrao_vf (a1 ++ a2)); [left; reflexivity|].
    rewrite Hc. right. reflexivity.
Qed.

Lemma formula_implica_calculo_witness :
  contains (str "x^2") (str "Calcule x^2 + 1.") /\
  (_classificar_tipo_questao (str "Calcule x^2 + 1.") = verdadeiro_falso \/
   _classificar_tipo_questao (str "Calcule x^2 + 1.") = calculo).
Proof.
  apply (formula_implica_calculo (str "Calcule x^2 + 1.") (str "x^2")).
  unfold _extrair_formulas. apply elem_of_list_to_set. apply list_elem_of_In.
  vm_compute. auto.
Defined.

(** ** The statement *)

Lemma length_whole ic r bef aft m :
  match_at ic r bef aft = Some m -> length (whole m) = (m_end m - m_start m)%nat.
Proof.
  intros M. unfold whole. rewrite length_rev, length_take. unfold m_end. lia.
Qed.

Lemma sub_empty_from_skip ic r w : forall bef aft,
  sub_empty_from ic r (length w) bef (w ++ aft) = sub_empty_from ic r 0 (rev w ++ bef) aft.
Proof.
  induction w as [|x w IH]; intros bef aft; [reflexivity|].
  change (sub_empty_from ic r (length (x :: w)) bef ((x :: w) ++ aft))
    with (sub_empty_from ic r (length w) (x :: bef) (w ++ aft)).
  rewrite IH. cbn [rev]. rewrite <- app_assoc. reflexivity.
Qed.

(** Removing the first match, when it begins the text. *)
Lemma sub_empty_inicio ic r s m :
  match_at ic r [] s = Some m -> whole m <> [] ->
  sub_empty ic r s = sub_empty_from ic r 0 (rev (whole m)) (after (m_final m)).
Proof.
  intros M Hne. pose proof (whole_spec _ _ _ _ _ M) as [E _].
  pose proof (length_whole _ _ _ _ _ M) as L.
  unfold sub_empty. destruct s as [|x s]; [destruct (whole m); [congruence|discriminate E]|].
  cbn [sub_empty_from]. rewrite M, <- L.
  destruct (whole m) as [|y w] eqn:W; [congruence|].
  cbn [app] in E. injection E as -> ->. cbn [length].
  rewrite sub_empty_from_skip. reflexivity.
Qed.

Lemma instrucao_limpar_aqui L1 L2 bef aft m :
  match_at false
    (seq [Alt (word L1) (word L2); One (Lit 58%N); star_lazy Dot; fim_instrucao]) bef aft
    = Some m ->
  exists L body,
    (L = L1 \/ L = L2) /\ whole m = L ++ 58%N :: body /\
    ((exists post', after (m_final m) = nl :: 40%N :: post') \/
     after (m_final m) = [] \/ after (m_final m) = [nl]).
Proof.
  intros M. pose proof (whole_spec _ _ _ _ _ M) as [W _].
  apply match_at_Some in M as [_ R].
  unfold star_lazy, fim_instrucao in R. cbn [seq reach] in R.
  destruct R as (s1 & RL & s2 & (x & A2 & M2 & B2 & G2)
    & s3 & (body & A3 & B3 & G3 & _) & RF & E).
  cbn [after before groups item_match] in *. apply N.eqb_eq in M2. subst x.
  assert (exists L, (L = L1 \/ L = L2) /\ aft = L ++ after s1) as (L & HL & A1).
  { destruct RL as [RL|RL]; apply reach_word in RL as [S ->]; cbn [after] in S;
      apply starts_exact in S as [p ->]; rewrite advance_app; cbn [after]; eauto. }
  exists L, body. split; [exact HL|]. split.
  - rewrite A1, A2, A3, E in W.
    assert ((L ++ 58%N :: body) ++ after s3 = whole m ++ after s3) as W'.
    { rewrite <- W, <- app_assoc. reflexivity. }
    apply app_inv_tail in W'. auto.
  - rewrite E. destruct RF as (st1 & [RF|RF]).
    + left. destruct RF as (t1 & (a & X1 & Ma & _) & (b & Y1 & Mb & _)).
      cbn [after item_match] in *. apply N.eqb_eq in Ma, Mb. subst a b.
      exists (after st1). rewrite X1, Y1. reflexivity.
    + right. destruct RF as [RF _]. exact RF.
Qed.

Lemma instrucao_limpar_Some L1 L2 bef L resto :
  L = L1 \/ L = L2 ->
  is_Some (match_at false
    (seq [Alt (word L1) (word L2); One (Lit 58%N); star_lazy Dot; fim_instrucao]) bef
    (L ++ 58%N :: resto)).
Proof.
  intros HL. apply match_at_reach.
  exists (MState (rev resto ++ 58%N :: rev L ++ bef) [] []).
  unfold star_lazy, fim_instrucao. cbn [seq reach].
  exists (MState (rev L ++ bef) (58%N :: resto) []). split.
  { destruct HL as [<-| <-]; [left|right]; apply reach_word; cbn [after];
      (split; [apply starts_exact; eauto|rewrite advance_app; reflexivity]). }
  exists (MState (58%N :: rev L ++ bef) resto []). split.
  { exists 58%N. cbn [after before groups item_match]. auto. }
  exists (MState (rev resto ++ 58%N :: rev L ++ bef) [] []). split.
  { exists resto. cbn [after before groups within]. rewrite app_nil_r.
    repeat split; auto; [apply Forall_forall; reflexivity|lia]. }
  split; [|reflexivity]. eexists. right. cbn [reach after]. split; [left; reflexivity|reflexivity].
Qed.

Lemma texto_limpo_de_instrucao rotulo resto :
  rotulo = str "Instrução" \/ rotulo = str "INSTRUÇÃO" ->
  ~ contains [nl; 40%N] resto ->
  sub_empty false padrao_instrucao_limpar (rotulo ++ 58%N :: resto) = [] \/
  sub_empty false padrao_instrucao_limpar (rotulo ++ 58%N :: resto) = [nl].
Proof.
  assert (forall bef, sub_empty_from false padrao_instrucao_limpar 0 bef [] = []) as T0.
  { intros bef. cbn [sub_empty_from]. destruct (match_at false _ bef []); reflexivity. }
  assert (forall bef, sub_empty_from false padrao_instrucao_limpar 0 bef [nl] = [nl]) as T1.
  { intros bef. vm_compute. reflexivity. }
  revert T0 T1. unfold padrao_instrucao_limpar, rotulo_instrucao.
  rewrite str_instrucao_1, str_instrucao_2. intros T0 T1 HL Hp.
  destruct (instrucao_limpar_Some _ _ [] rotulo resto HL) as [m M].
  pose proof (instrucao_limpar_aqui _ _ _ _ _ M) as (L & body & HL' & W & Hpost).
  pose proof (whole_spec _ _ _ _ _ M) as [E _].
  rewrite (sub_empty_inicio _ _ _ m M) by (rewrite W; destruct L; discriminate).
  destruct Hpost as [(post' & P)|[P|P]]; rewrite P.
  - exfalso. rewrite W, P, <- app_assoc in E. cbn [app] in E.
    apply (rotulo_igual _ _ _ _ HL HL') in E. injection E as E.
    apply Hp. exists body, post'. exact E.
  - left. apply T0.
  - right. apply T1.
Qed.

Lemma montar_sem_enunciado q : enunciado q = [] -> montar [q] = [].
Proof.
  intros E. unfold montar. rewrite filter_cons.
  destruct (decide (enunciado_nao_vazio q = true)) as [H|H]; [|reflexivity].
  unfold enunciado_nao_vazio in H. rewrite E in H. discriminate H.
Qed.

(** X15. A question that is an instruction and nothing else has an empty
    statement, and the assembly drops it. *)
Theorem enunciado_de_instrucao rotulo resto :
  rotulo = str "Instrução" \/ rotulo = str "INSTRUÇÃO" ->
  ~ contains (nl :: str "(") resto ->
  _extrair_enunciado (rotulo ++ str ":" ++ resto) = [] /\
  forall self num mat pag prox,
    montar [_estruturar_questao self num (rotulo ++ str ":" ++ resto) mat pag prox] = [].
Proof.
  rewrite str_dois_pontos, str_abre. cbn [app]. intros HL Hp.
  assert (_extrair_enunciado (rotulo ++ 58%N :: resto) = []) as E.
  { unfold _extrair_enunciado.
    destruct (texto_limpo_de_instrucao rotulo resto HL Hp) as [-> | ->];
      vm_compute; reflexivity. }
  split; [exact E|]. intros self num mat pag prox.
  apply montar_sem_enunciado. exact E.
Qed.

Lemma enunciado_de_instrucao_witness :
  _extrair_enunciado (str "Instrução" ++ str ":" ++ str " leia o texto (abaixo)" ++ [nl]) = [] /\
  forall self num mat pag prox,
    montar [_estruturar_questao self num
              (str "Instrução" ++ str ":" ++ str " leia o texto (abaixo)" ++ [nl])
              mat pag prox] = [].
Proof.
  apply (enunciado_de_instrucao (str "Instrução") (str " leia o texto (abaixo)" ++ [nl])).
  - left. reflexivity.
  - apply not_contains. vm_compute. reflexivity.
Defined.

(** ** Images and pages *)

(** X16. A question whose context holds no page marker has no image,
    whatever its text and the image index are. *)
Theorem sem_pagina_sem_imagens self num texto mat contexto prox :
  ~ contains (str "[PAGINA:") contexto ->
  let q := _estruturar_questao self num texto mat (_extrair_pagina_contexto contexto) prox in
  tem_imagem q = false /\ imagens q = [].
Proof.
  intros H q. subst q.
  assert (_extrair_pagina_contexto contexto = None) as ->.
  { destruct (_extrair_pagina_contexto contexto) as [p|] eqn:E; [|reflexivity].
    exfalso. apply H. apply (pagina_com_marcador contexto p). exact E. }
  unfold _estruturar_questao, _encontrar_imagens_por_numero. cbn [tem_imagem imagens].
  destruct (search true padrao_referencia texto); split; reflexivity.
Qed.

Lemma sem_pagina_sem_imagens_witness :
  let q := _estruturar_questao (Extractor None indice_exemplo) 7
             (str "Observe a figura e o mapa.") None
             (_extrair_pagina_contexto (str "[MATERIA:Geografia] pagina 5")) None in
  tem_imagem q = false /\ imagens q = [].
Proof.
  apply (sem_pagina_sem_imagens (Extractor None indice_exemplo) 7
           (str "Observe a figura e o mapa.") None (str "[MATERIA:Geografia] pagina 5") None).
  apply not_contains. vm_compute. reflexivity.
Defined.

(** X17. A document none of whose pages can be read has no question. *)
Theorem documento_ilegivel indice n :
  extrair_todas_questoes indice (replicate n None) = [].
Proof.
  unfold extrair_todas_questoes, questoes_do_texto.
  rewrite <- (app_nil_r (replicate n None)), ler_paginas_falhas. reflexivity.
Qed.

(** ** The assembly *)

Lemma inserir_primeiro q l :
  Sorted (fun a b => numero a <= numero b) (q :: l) -> inserir q l = q :: l.
Proof.
  intros S. destruct l as [|q' l]; [reflexivity|].
  apply Sorted_inv in S as [_ H]. apply HdRel_inv in H. cbn [inserir].
  destruct (Z.leb_spec (numero q) (numero q')); [reflexivity|lia].
Qed.

Lemma ordenar_ordenada l :
  Sorted (fun a b => numero a <= numero b) l -> ordenar l = l.
Proof.
  induction l as [|q l IH]; intros S; [reflexivity|].
  unfold ordenar in *. cbn [foldr]. rewrite IH by (apply Sorted_inv in S as [S _]; exact S).
  apply inserir_primeiro. exact S.
Qed.

Lemma filter_todos (P : questao -> Prop) `{forall q, Decision (P q)} l :
  Forall P l -> filter P l = l.
Proof.
  induction 1 as [|q l Hq F IH]; [reflexivity|].
  rewrite filter_cons, IH. destruct (decide (P q)); [reflexivity|contradiction].
Qed.

(** X18. Assembling an assembled collection changes nothing. *)
Theorem montar_idempotente questoes : montar (montar questoes) = montar questoes.
Proof.
  unfold montar at 1.
  rewrite filter_todos.
  - apply ordenar_ordenada, StronglySorted_Sorted, ordenar_sorted.
  - unfold montar. apply Forall_forall. intros q Hq.
    apply list_elem_of_In in Hq.
    apply (Permutation_in _ (ordenar_perm _)) in Hq.
    apply list_elem_of_In, list_elem_of_filter in Hq as [Hq _]. exact Hq.
Qed.

Lemma sub_empty_from_sem_match ic r : forall aft bef,
  (forall a1 a2, aft = a1 ++ a2 -> match_at ic r (rev a1 ++ bef) a2 = None) ->
  sub_empty_from ic r 0 bef aft = aft.
Proof.
  induction aft as [|x aft IH]; intros bef H; cbn [sub_empty_from].
  - pose proof (H [] [] eq_refl) as H0. cbn [rev app] in H0. rewrite H0. reflexivity.
  - pose proof (H [] (x :: aft) eq_refl) as H0. cbn [rev app] in H0. rewrite H0.
    f_equal. apply IH.
    intros a1 a2 E. specialize (H (x :: a1) a2). cbn [rev app] in H.
    rewrite <- app_assoc in H. apply H. rewrite E. reflexivity.
Qed.

Lemma sub_empty_sem_match ic r s :
  (forall a1 a2, s = a1 ++ a2 -> match_at ic r (rev a1) a2 = None) ->
  sub_empty ic r s = s.
Proof.
  intros H. apply sub_empty_from_sem_match. intros a1 a2 E. rewrite app_nil_r.
  apply H. exact E.
Qed.

Lemma texto_limpo_sem_instrucao texto :
  ~ contains (str "Instrução:") texto -> ~ contains (str "INSTRUÇÃO:") texto ->
  sub_empty false padrao_instrucao_limpar texto = texto.
Proof.
  rewrite str_rotulo_1, str_rotulo_2. unfold padrao_instrucao_limpar, rotulo_instrucao.
  generalize (str "Instrução") (str "INSTRUÇÃO"). intros L1 L2 H1 H2.
  apply sub_empty_sem_match. intros a1 a2 E.
  destruct (match_at false _ (rev a1) a2) as [m|] eqn:M; [|reflexivity]. exfalso.
  pose proof (whole_spec _ _ _ _ _ M) as [W _].
  apply instrucao_limpar_aqui in M as (L & body & HL & Hw & _).
  rewrite Hw in W. rewrite W in E.
  assert (contains (L ++ [58%N]) texto) as C.
  { exists a1, (body ++ after (m_final m)). rewrite E, <- !app_assoc. reflexivity. }
  destruct HL as [->| ->]; auto.
Qed.

Lemma linha_aqui bef aft m :
  match_at false padrao_linha bef aft = Some m -> exists post, aft = 108%N :: 46%N :: post.
Proof.
  intros M. apply match_at_Some in M as [_ R]. unfold padrao_linha in R. cbn [seq reach] in R.
  destruct R as (s1 & (x & A1 & M1 & _) & s2 & (y & A2 & M2 & _) & _).
  cbn [after item_match] in *. apply N.eqb_eq in M1, M2. subst x y.
  exists (after s2). rewrite A1, A2. reflexivity.
Qed.

Lemma sem_referencia_de_linha s :
  ~ contains [108%N; 46%N] s -> sub_empty false padrao_linha s = s.
Proof.
  intros H. apply sub_empty_sem_match. intros a1 a2 E.
  destruct (match_at false padrao_linha (rev a1) a2) as [m|] eqn:M; [|reflexivity].
  exfalso. apply linha_aqui in M as (post & ->). apply H. exists a1, post. exact E.
Qed.

Lemma strip_contido s : exists a b, s = a ++ strip s ++ b.
Proof.
  unfold strip. destruct (lstrip_suffix s) as (a & E & _).
  destruct (rstrip_prefix (lstrip s)) as (b & E' & _).
  exists a, b. rewrite <- E', <- E. reflexivity.
Qed.

(** The part of the statement pattern after the group:
    r'\n\s*\([A-E]\)'. *)
Lemma alternativa_a_seguir bef aft gs fin :
  exec false (seq [One (Lit nl); star Space; One (Lit 40%N); One (Range 65%N 69%N);
                   One (Lit 41%N)]) (MState bef aft gs) Some = Some fin ->
  exists sp x post, aft = nl :: sp ++ 40%N :: x :: 41%N :: post /\
    Forall (fun y => is_space y = true) sp /\ groups fin = gs.
Proof.
  intros X. apply exec_sound in X as (fin' & R & [= ->]).
  unfold star in R. cbn [seq reach] in R.
  destruct R as (s1 & (a & A1 & M1 & _ & G1) & s2 & (sp & A2 & _ & G2 & F2 & _)
    & s3 & (b & A3 & M3 & _ & G3) & s4 & (x & A4 & _ & _ & G4) & (c & A5 & M5 & _ & G5)).
  cbn [after groups item_match] in *. apply N.eqb_eq in M1, M3, M5. subst a b c.
  exists sp, x, (after fin). rewrite A1, A2, A3, A4, A5. repeat split; auto.
  rewrite G5, G4, G3, G2, G1. reflexivity.
Qed.

Lemma alternativa_a_seguir_Some bef sp x post gs :
  Forall (fun y => is_space y = true) sp -> in_range 65%N 69%N x = true ->
  is_Some (exec false (seq [One (Lit nl); star Space; One (Lit 40%N);
                            One (Range 65%N 69%N); One (Lit 41%N)])
             (MState bef (nl :: sp ++ 40%N :: x :: 41%N :: post) gs) Some).
Proof.
  intros F Hx.
  apply (exec_complete false _ _
           (MState (41%N :: x :: 40%N :: rev sp ++ nl :: bef) post gs)); [|eauto].
  unfold star. cbn [seq reach].
  exists (MState (nl :: bef) (sp ++ 40%N :: x :: 41%N :: post) gs). split.
  { exists nl. cbn [after before groups item_match]. auto. }
  exists (MState (rev sp ++ nl :: bef) (40%N :: x :: 41%N :: post) gs). split.
  { exists sp. cbn [after before groups within]. repeat split; auto. lia. }
  exists (MState (40%N :: rev sp ++ nl :: bef) (x :: 41%N :: post) gs). split.
  { exists 40%N. cbn [after before groups item_match]. auto. }
  exists (MState (x :: 40%N :: rev sp ++ nl :: bef) (41%N :: post) gs). split.
  { exists x. cbn [after before groups item_match]. auto. }
  exists 41%N. cbn [after before groups item_match]. auto.
Qed.

Lemma str_l_ponto : str "l." = [108; 46]%N.
Proof. vm_compute. reflexivity. Qed.

Lemma str_fecha_parentese : str ")" = [41]%N.
Proof. vm_compute. reflexivity. Qed.

(** X19. In a text without an instruction, the statement is the text
    before the first line that begins with an option, stripped. *)
Theorem enunciado_antes_das_alternativas corpo sp x depois :
  let texto := corpo ++ nl :: sp ++ str "(" ++ x :: str ")" ++ depois in
  ~ contains (str "Instrução:") texto -> ~ contains (str "INSTRUÇÃO:") texto ->
  corpo <> [] -> 40%N ∉ corpo -> ~ contains (str "l.") corpo ->
  Forall (fun y => is_space y = true) sp -> in_range 65%N 69%N x = true ->
  _extrair_enunciado texto = strip corpo.
Proof.
  intros texto. subst texto. rewrite str_abre, str_fecha_parentese, str_l_ponto. cbn [app].
  intros H1 H2 Hne H40 Hl Fsp Hx. unfold _extrair_enunciado.
  rewrite (texto_limpo_sem_instrucao _ H1 H2).
  match goal with
  | |- context [search false padrao_enunciado ?t] => set (texto := t)
  end.
  assert (exists fin,
            exec false padrao_enunciado (MState [] texto []) Some = Some fin) as [fin X].
  { apply (exec_complete false padrao_enunciado _
             (MState (41%N :: x :: 40%N :: rev sp ++ nl :: rev corpo) depois
                [(1%nat, consumed (MState [] texto []) (MState (rev corpo) (nl :: sp ++ 40%N :: x :: 41%N :: depois) []))]));
      [|eauto].
    unfold padrao_enunciado, plus_lazy, star. cbn [seq reach].
    exists (MState [] texto []). split; [split; reflexivity|].
    eexists. split.
    { exists (MState (rev corpo) (nl :: sp ++ 40%N :: x :: 41%N :: depois) []).
      split; [|reflexivity]. exists corpo. cbn [after before groups within].
      rewrite app_nil_r. repeat split; auto.
      - apply Forall_forall. reflexivity.
      - destruct corpo; [congruence|simpl; lia]. }
    cbn [after before groups].
    eexists (MState (nl :: rev corpo) (sp ++ 40%N :: x :: 41%N :: depois) _). split.
    { exists nl. cbn [after before groups item_match]. auto. }
    eexists (MState (rev sp ++ nl :: rev corpo) (40%N :: x :: 41%N :: depois) _). split.
    { exists sp. cbn [after before groups within]. repeat split; auto. lia. }
    eexists (MState (40%N :: rev sp ++ nl :: rev corpo) (x :: 41%N :: depois) _). split.
    { exists 40%N. cbn [after before groups item_match]. auto. }
    eexists (MState (x :: 40%N :: rev sp ++ nl :: rev corpo) (41%N :: depois) _). split.
    { exists x. cbn [after before groups item_match]. auto. }
    exists 41%N. cbn [after before groups item_match]. auto. }
  assert (search false padrao_enunciado texto = Some (Match 0 fin)) as ->.
  { unfold search. destruct texto; cbn [search_from]; unfold match_at; rewrite X; reflexivity. }
  unfold group. cbn [m_final].
  unfold padrao_enunciado, plus_lazy in X. cbn [seq] in X.
  apply exec_Seq_sound in X as (s1 & [_ ->] & X).
  remember (seq [One (Lit nl); star Space; One (Lit 40%N); One (Range 65%N 69%N);
                 One (Lit 41%N)]) as resto eqn:Er.
  change (Seq (One (Lit nl)) (Seq (star Space) (Seq (One (Lit 40%N))
            (Seq (One (Range 65%N 69%N)) (One (Lit 41%N))))))
    with (seq [One (Lit nl); star Space; One (Lit 40%N); One (Range 65%N 69%N);
               One (Lit 41%N)]) in X.
  rewrite <- Er in X. cbn [exec before after groups] in X.
  apply rep_lazy_min in X as (w & aft' & A & K & Lw & Hmin).
  cbn [before after groups] in K, Hmin. rewrite app_nil_r in K.
  rewrite Er in K. pose proof K as K'.
  apply alternativa_a_seguir in K' as (sp' & x' & post & -> & Fsp' & G).
  rewrite G. cbn [lookup_group Nat.eqb].
  rewrite (consumed_rev (MState [] texto []) _ w) by (cbn [before]; rewrite app_nil_r; reflexivity).
  assert (strip w = strip corpo) as Es.
  { unfold texto in A. apply app_eq_inv in A as [(k0 & E1 & E2)|(k0 & E1 & E2)].
    - destruct k0 as [|z k0]; [rewrite app_nil_r in E1; congruence|].
      cbn [app] in E2. injection E2 as Ez E2. subst z.
      assert (Forall (fun y => negb (y =? 40)%N = true) (k0 ++ nl :: sp)) as Fa.
      { apply Forall_app. split.
        - apply Forall_forall. intros y Hy. apply negb_true_iff, N.eqb_neq. intros ->.
          apply H40. rewrite E1. apply elem_of_app. right. right. exact Hy.
        - constructor; [reflexivity|]. eapply Forall_impl; [exact Fsp|].
          intros y Hy. apply negb_true_iff, N.eqb_neq. intros ->. discriminate Hy. }
      assert (Forall (fun y => negb (y =? 40)%N = true) sp') as Fb.
      { eapply Forall_impl; [exact Fsp'|].
        intros y Hy. apply negb_true_iff, N.eqb_neq. intros ->. discriminate Hy. }
      assert (sp' ++ 40%N :: x' :: 41%N :: post
              = (k0 ++ nl :: sp) ++ 40%N :: x :: 41%N :: depois) as E3.
      { rewrite E2, <- app_assoc. reflexivity. }
      apply (run_unique (fun y => negb (y =? 40)%N) 40%N) in E3 as [E3 _]; auto.
      assert (Forall (fun y => is_space y = true) k0) as Fk.
      { rewrite E3 in Fsp'. apply Forall_app in Fsp' as [Fk _]. exact Fk. }
      rewrite E1. symmetry. apply strip_spaces_r. constructor; [reflexivity|exact Fk].
    - destruct k0 as [|z k0]; [rewrite app_nil_r in E1; congruence|]. exfalso.
      assert (1 <= length corpo)%nat as Lc by (destruct corpo; [congruence|simpl; lia]).
      specialize (Hmin corpo (z :: k0) E1 ltac:(discriminate) Lc).
      rewrite Er in Hmin.
      match type of Hmin with
      | ?e = None => assert (is_Some e) as [r Hr]; [|rewrite Hr in Hmin; discriminate Hmin]
      end.
      rewrite <- E2. apply alternativa_a_seguir_Some; assumption. }
  rewrite Es. apply sem_referencia_de_linha. intros (p & q & E).
  destruct (strip_contido corpo) as (a & b & Ec). apply Hl.
  exists (a ++ p), (q ++ b). rewrite Ec at 1. rewrite E, <- !app_assoc. reflexivity.
Qed.

Lemma enunciado_antes_das_alternativas_witness :
  _extrair_enunciado
    (str "Qual e a capital do Peru? " ++ nl :: str " " ++ str "(" ++ 65%N :: str ")" ++
     str " Lima (B) Quito")
  = str "Qual e a capital do Peru?".
Proof.
  apply (enunciado_antes_das_alternativas (str "Qual e a capital do Peru? ") (str " ") 65%N
           (str " Lima (B) Quito")).
  - apply not_contains. vm_compute. reflexivity.
  - apply not_contains. vm_compute. reflexivity.
  - discriminate.
  - intros H. apply list_elem_of_In in H. vm_compute in H.
    repeat destruct H as [H|H]; try discriminate H; exact H.
  - apply not_contains. vm_compute. reflexivity.
  - vm_compute. repeat constructor.
  - reflexivity.
Defined.

(** X20. The current subject is never forgotten: once a page has given a
    subject, every later page leaves one. *)
Theorem materia_nunca_esquecida paginas n m acc :
  is_Some m -> is_Some (fst (ler_paginas paginas n m acc)).
Proof.
  revert n m acc. induction paginas as [|[t|] ps IH]; intros n m acc Hm; cbn [ler_paginas].
  - exact Hm.
  - apply IH. unfold _detectar_materia.
    destruct (primeira_materia materias t); [eauto|exact Hm].
  - apply IH. exact Hm.
Qed.

Lemma materia_nunca_esquecida_witness :
  is_Some (fst (ler_paginas [Some (str "texto sem disciplina"); None] 3
                  (Some (str "Física")) [])).
Proof. apply materia_nunca_esquecida. eauto. Defined.

(** ** Subject classification by table order *)





(** ** Page recovery from the context *)




(** ** Instruction extraction by label *)



(** ** Segmentation on numbered lines *)










